(** * Gogoro battery-swap bill analysis (go.py): a shallow embedding

    The program reads PDF bills, rebuilds text rows from positioned words,
    keeps the rows that look like swap records, pulls station names out of
    them with regular expressions, counts the names and draws a chart.

    Python strings are sequences of Unicode code points, so a string is a
    list of code points here.  The PDF library (fitz), the file system
    (os), pandas and matplotlib are external: their results are inputs of
    the model, and the calls that can raise are given a result type. *)

From Stdlib Require Import QArith Qround Qabs Lqa String.
From stdpp Require Import gmap list sorting.

Local Open Scope N_scope.

(** ** Strings *)

(** A Python [str]: a list of code points. *)
Abbreviation str := (list N).

(** Decoding of the UTF-8 bytes of a literal into code points; it is only
    used to write the program's string constants the way the source does. *)
Fixpoint utf8_decode (bs : list N) : str :=
  match bs with
  | [] => []
  | b0 :: t0 =>
    if b0 <? 0x80 then b0 :: utf8_decode t0
    else if b0 <? 0xE0 then
      match t0 with
      | b1 :: t1 => ((b0 - 0xC0) * 64 + (b1 - 0x80)) :: utf8_decode t1
      | _ => []
      end
    else if b0 <? 0xF0 then
      match t0 with
      | b1 :: b2 :: t2 =>
        ((b0 - 0xE0) * 4096 + (b1 - 0x80) * 64 + (b2 - 0x80)) :: utf8_decode t2
      | _ => []
      end
    else
      match t0 with
      | b1 :: b2 :: b3 :: t3 =>
        ((b0 - 0xF0) * 262144 + (b1 - 0x80) * 4096 + (b2 - 0x80) * 64 + (b3 - 0x80))
          :: utf8_decode t3
      | _ => []
      end
  end.

Definition u (s : String.string) : str :=
  utf8_decode (map Byte.to_N (String.list_byte_of_string s)).

Arguments u s%_string.

(** [str.isspace] of one character, which is also what [\s] matches in a
    [str] pattern (CPython's [_PyUnicode_IsWhitespace]). *)
Definition isspace (c : N) : bool :=
  ((0x09 <=? c) && (c <=? 0x0D)) || ((0x1C <=? c) && (c <=? 0x20))
  || (c =? 0x85) || (c =? 0xA0) || (c =? 0x1680)
  || ((0x2000 <=? c) && (c <=? 0x200A))
  || (c =? 0x2028) || (c =? 0x2029) || (c =? 0x202F) || (c =? 0x205F)
  || (c =? 0x3000).

(** The character tables of Python's Unicode database that the program
    reaches through [\w], [\d] and [str.lower]. They belong to the
    interpreter, not to the program, and are a parameter of the model. *)
Record unicode_db := {
  isalnum : N -> bool;
  isdecimal : N -> bool;
  lower : str -> str
}.

(** [startswith], [endswith] and the [in] operator on strings. *)
Fixpoint startswith (s p : str) : bool :=
  match p, s with
  | [], _ => true
  | _ :: _, [] => false
  | a :: p', b :: s' => (a =? b) && startswith s' p'
  end.

Definition endswith (s p : str) : bool := startswith (rev s) (rev p).

Fixpoint str_in (p s : str) : bool :=
  startswith s p || match s with [] => false | _ :: s' => str_in p s' end.

(** [str.strip()] with no argument: whitespace is dropped at both ends. *)
Fixpoint lstrip (s : str) : str :=
  match s with
  | c :: s' => if isspace c then lstrip s' else s
  | [] => []
  end.

Definition rstrip (s : str) : str := rev (lstrip (rev s)).

Definition strip (s : str) : str := rstrip (lstrip s).

(** ** Regular expressions

    The fragment of [re] the program uses: literal characters, character
    classes, concatenation, alternation, a greedy [+] on a class, [$] and
    the empty pattern.
    Matching is by backtracking with a continuation, in the order [re]
    tries the alternatives: the longest repetition first, the left branch
    of an alternation first. A matcher receives the text from the current
    position to the end, which is all that these constructs look at. *)
Inductive regex :=
| Chr (c : N)
| Cls (p : N -> bool)
| Cat (r1 r2 : regex)
| Alt (r1 r2 : regex)
| Plus (p : N -> bool)
| Eol
| Eps.

(** Zero or more characters of class [p], the longest run first, giving
    one character back at a time while the rest of the pattern fails. *)
Fixpoint greedy (p : N -> bool) (s : str) (k : str -> option str) : option str :=
  match s with
  | c :: s' =>
    if p c then
      match greedy p s' k with
      | Some r => Some r
      | None => k s
      end
    else k s
  | [] => k []
  end.

(** [exec r s k]: match [r] at the start of [s], then [k] on what is left.
    [$] holds at the end of the text and just before a final newline. *)
Fixpoint exec (r : regex) (s : str) (k : str -> option str) : option str :=
  match r with
  | Chr c =>
    match s with
    | x :: s' => if x =? c then k s' else None
    | [] => None
    end
  | Cls p =>
    match s with
    | x :: s' => if p x then k s' else None
    | [] => None
    end
  | Cat r1 r2 => exec r1 s (fun s' => exec r2 s' k)
  | Alt r1 r2 =>
    match exec r1 s k with
    | Some t => Some t
    | None => exec r2 s k
    end
  | Plus p =>
    match s with
    | x :: s' => if p x then greedy p s' k else None
    | [] => None
    end
  | Eol =>
    match s with
    | [] => k s
    | [10] => k s
    | _ => None
    end
  | Eps => k s
  end.

(** A match at the start of [s]: the text left after it. *)
Definition re_match (r : regex) (s : str) : option str := exec r s Some.

(** The matched text, given the text left after the match. *)
Definition matched (s rest : str) : str :=
  take (length s - length rest) s.

(** [pattern.search(s)] as a truth value: is there a match anywhere. *)
Fixpoint re_search (r : regex) (s : str) : bool :=
  match re_match r s with
  | Some _ => true
  | None =>
    match s with
    | [] => false
    | _ :: s' => re_search r s'
    end
  end.

(** [pattern.findall(s)] for a pattern whose only group is the whole
    pattern: the matches from left to right, the search going on where
    the last match ended. [skip] counts the characters of the last match
    still to pass. The patterns of this program match no empty text. *)
Fixpoint findall_from (r : regex) (s : str) (skip : nat) {struct s} : list str :=
  match skip with
  | S n =>
    match s with
    | [] => []
    | _ :: s' => findall_from r s' n
    end
  | O =>
    match re_match r s with
    | Some rest =>
      matched s rest ::
        match s with
        | [] => []
        | _ :: s' => findall_from r s' (pred (length s - length rest))
        end
    | None =>
      match s with
      | [] => []
      | _ :: s' => findall_from r s' 0
      end
    end
  end.

Definition findall (r : regex) (s : str) : list str := findall_from r s 0.

(** [re.sub(pattern, '', s)]: every match, from left to right, is removed. *)
Fixpoint sub_from (r : regex) (s : str) (skip : nat) {struct s} : str :=
  match skip with
  | S n =>
    match s with
    | [] => []
    | _ :: s' => sub_from r s' n
    end
  | O =>
    match s with
    | [] => []
    | c :: s' =>
      match re_match r s with
      | Some rest =>
        match (length s - length rest)%nat with
        | O => c :: sub_from r s' 0
        | S n => sub_from r s' n
        end
      | None => c :: sub_from r s' 0
      end
    end
  end.

Definition re_sub_empty (r : regex) (s : str) : str := sub_from r s 0.

(** A literal word of a pattern. *)
Fixpoint lit (w : str) : regex :=
  match w with
  | [] => Eps
  | c :: w' => Cat (Chr c) (lit w')
  end.

Section Patterns.

Variable db : unicode_db.

(** [\w] and [\d] of a [str] pattern. *)
Definition word_char (c : N) : bool := isalnum db c || (c =? 95).
Definition digit (c : N) : bool := isdecimal db c.

(** The class [[一-龥\w\s\d-]]. *)
Definition station_char (c : N) : bool :=
  ((0x4e00 <=? c) && (c <=? 0x9fa5)) || word_char c || isspace c || digit c
  || (c =? 45).

(** The suffix words of a station name, in the order of the source. *)
Definition suffixes : list str :=
  Eval vm_compute in
    [u "站"; u "店"; u "門市"; u "公所"; u "中心"; u "停車場"].

Definition suffix_alt : regex :=
  Alt (lit (u "站")) (Alt (lit (u "店")) (Alt (lit (u "門市"))
    (Alt (lit (u "公所")) (Alt (lit (u "中心")) (lit (u "停車場")))))).

(** [station_pattern] and [time_pattern] of [extract_swap_stations_from_pdf]. *)
Definition station_pattern : regex := Cat (Plus station_char) suffix_alt.

Definition time_pattern : regex :=
  Cat (Cls digit) (Cat (Cls digit) (Cat (Chr 58)
    (Cat (Cls digit) (Cat (Cls digit) (Cat (Chr 58)
      (Cat (Cls digit) (Cls digit))))))).

End Patterns.

(** The pattern [\s+[A-D]$] of the clean-up. *)
Definition bay_letter (c : N) : bool := (65 <=? c) && (c <=? 68).

Definition bay_pattern : regex := Cat (Plus isspace) (Cat (Cls bay_letter) Eol).

(** The fixed phrases of the source. *)
Definition UNIT_MARKER : str := Eval vm_compute in u "(安時)".
Definition FREE_PERIOD : str := Eval vm_compute in u "換電免費時段折抵".
Definition BILLED_QTY : str := Eval vm_compute in u "計費數量".
Definition PAGE_MARKER : str := Eval vm_compute in u "電池服務明細表".

(** A table that is Python's on ASCII and on the CJK unified ideographs
    U+4E00..U+9FFF, and holds no other character; it is used to run the
    program on texts made of such characters. *)
Definition ascii_alnum (c : N) : bool :=
  ((48 <=? c) && (c <=? 57)) || ((65 <=? c) && (c <=? 90))
  || ((97 <=? c) && (c <=? 122)).

Definition basic_db : unicode_db := {|
  isalnum := fun c => ascii_alnum c || ((0x4e00 <=? c) && (c <=? 0x9fff));
  isdecimal := fun c => (48 <=? c) && (c <=? 57);
  lower := map (fun c => if (65 <=? c) && (c <=? 90) then c + 32 else c)
|}.

(** ** Row reconstruction *)

(** An entry of [page.get_text("words")]. The program reads its second
    field, the top coordinate (a finite float, hence a rational), and its
    fifth, the text. *)
Record word := { word_y0 : Q; word_text : str }.

(** [round(x)] of a float: the nearest integer, a tie going to the even one. *)
Definition py_round (q : Q) : Z :=
  let f := Qfloor q in
  match (q - inject_Z f ?= 1 # 2)%Q with
  | Lt => f
  | Gt => (f + 1)%Z
  | Eq => if Z.even f then f else (f + 1)%Z
  end.

(** [rows[y0].append(word[4])] on the [defaultdict(list)]. *)
Definition add_word (rows : gmap Z (list str)) (w : word) : gmap Z (list str) :=
  let y0 := py_round (word_y0 w) in
  <[ y0 := default [] (rows !! y0) ++ [word_text w] ]> rows.

Definition group_words (words : list word) : gmap Z (list str) :=
  foldl add_word ∅ words.

(** [sorted(rows.keys())]. *)
Definition sorted_keys (rows : gmap Z (list str)) : list Z :=
  merge_sort Z.le (map_to_list rows).*1.

(** The rows of a page in the order the loop visits them, each with its
    key and its text ["".join(rows[y_coord])]. *)
Definition page_rows (words : list word) : list (Z * str) :=
  let rows := group_words words in
  (fun y_coord => (y_coord, concat (default [] (rows !! y_coord))))
    <$> sorted_keys rows.

(** ** Station extraction *)

(** The test in front of a row: [time_pattern.search(row_text)] and the
    unit marker. *)
Definition is_swap_row (db : unicode_db) (row_text : str) : bool :=
  re_search (time_pattern db) row_text && str_in UNIT_MARKER row_text.

(** [re.sub(r'\s+[A-D]$', '', cleaned_station).strip()]. *)
Definition trim_bay (cleaned_station : str) : str :=
  strip (re_sub_empty bay_pattern cleaned_station).

(** The body of the loop over [found_stations]: what one candidate adds
    to [stations]. *)
Definition add_station (stations : list str) (station : str) : list str :=
  let cleaned_station := strip station in
  if negb (str_in FREE_PERIOD cleaned_station)
     && negb (str_in BILLED_QTY cleaned_station)
  then
    let cleaned_station := trim_bay cleaned_station in
    match cleaned_station with
    | [] => stations
    | _ :: _ => stations ++ [cleaned_station]
    end
  else stations.

(** The body of the loop over the rows. *)
Definition add_row (db : unicode_db) (stations : list str) (row_text : str)
  : list str :=
  if is_swap_row db row_text
  then foldl add_station stations (findall (station_pattern db) row_text)
  else stations.

(** ** Documents and errors *)

(** The outcome of a call that may raise an [Exception]; [e] is the text
    of the exception. *)
Inductive result (A : Type) :=
| Ok (a : A)
| Raise (e : str).

Arguments Ok {A} a.
Arguments Raise {A} e.

(** A page, as far as the program looks at it: the answers of
    [get_text("text")] and [get_text("words")]. *)
Record page := {
  get_text_text : result str;
  get_text_words : result (list word)
}.

(** The loop over the pages. [stations] lives outside the [try], so an
    exception leaves the loop with what was appended so far. *)
Fixpoint process_pages (db : unicode_db) (doc : list page) (stations : list str)
  : list str * option str :=
  match doc with
  | [] => (stations, None)
  | pg :: doc' =>
    match get_text_text pg with
    | Raise e => (stations, Some e)
    | Ok txt =>
      if negb (str_in PAGE_MARKER txt) then process_pages db doc' stations
      else
        match get_text_words pg with
        | Raise e => (stations, Some e)
        | Ok [] => process_pages db doc' stations
        | Ok words =>
          process_pages db doc'
            (foldl (add_row db) stations (page_rows words).*2)
        end
    end
  end.

(** What the program sees of its surroundings: the listing of a folder,
    how a path is joined, and what opening a PDF gives. *)
Record system := {
  listdir : str -> result (list str);
  path_join : str -> str -> str;
  fitz_open : str -> result (list page)
}.

(** The line printed by the [except] branch. *)
Definition error_line (pdf_path e : str) : str :=
  u "處理檔案 '" ++ pdf_path ++ u "' 時發生錯誤: " ++ e.

(** [extract_swap_stations_from_pdf]: the list returned and the lines
    printed. *)
Definition extract_swap_stations_from_pdf (db : unicode_db) (sys : system)
  (pdf_path : str) : list str * list str :=
  match fitz_open sys pdf_path with
  | Raise e => ([], [error_line pdf_path e])
  | Ok doc =>
    match process_pages db doc [] with
    | (stations, None) => (stations, [])
    | (stations, Some e) => (stations, [error_line pdf_path e])
    end
  end.

(** ** Aggregation *)

(** A pandas [Series] of counts indexed by station name, in its order. *)
Abbreviation series := (list (str * nat)).

(** One more occurrence of [name] in a table kept in order of first
    appearance. *)
Fixpoint count_one (name : str) (t : series) : series :=
  match t with
  | [] => [(name, 1%nat)]
  | (k, n) :: t' =>
    if decide (k = name) then (k, S n) :: t' else (k, n) :: count_one name t'
  end.

(** [Series(names).value_counts()]: the count of every distinct name, the
    largest count first. The order among equal counts is the sort's
    affair in pandas; here names seen first come first. *)
Definition by_count_desc (a b : str * nat) : Prop := (snd b <= snd a)%nat.

#[global] Instance by_count_desc_dec (a b : str * nat) : Decision (by_count_desc a b) :=
  decide (snd b <= snd a)%nat.

Definition value_counts (names : list str) : series :=
  merge_sort by_count_desc (foldl (fun t name => count_one name t) [] names).

(** The digits of a number, as an f-string prints it. *)
Fixpoint uint_str (d : Decimal.uint) : str :=
  match d with
  | Decimal.Nil => []
  | Decimal.D0 d => 48 :: uint_str d
  | Decimal.D1 d => 49 :: uint_str d
  | Decimal.D2 d => 50 :: uint_str d
  | Decimal.D3 d => 51 :: uint_str d
  | Decimal.D4 d => 52 :: uint_str d
  | Decimal.D5 d => 53 :: uint_str d
  | Decimal.D6 d => 54 :: uint_str d
  | Decimal.D7 d => 55 :: uint_str d
  | Decimal.D8 d => 56 :: uint_str d
  | Decimal.D9 d => 57 :: uint_str d
  end.

Definition str_of_nat (n : nat) : str := uint_str (Nat.to_uint n).

(** The loop over [pdf_files]: the state is [all_swaps] and the lines
    printed so far. *)
Definition process_file (db : unicode_db) (sys : system) (folder_path : str)
  (st : list str * list str) (pdf_file : str) : list str * list str :=
  let '(all_swaps, out) := st in
  let out := out ++ [u "  - 正在處理: " ++ pdf_file] in
  let file_path := path_join sys folder_path pdf_file in
  let '(swaps_in_file, printed) := extract_swap_stations_from_pdf db sys file_path in
  (all_swaps ++ swaps_in_file, out ++ printed).

Definition is_pdf (db : unicode_db) (f : str) : bool :=
  endswith (lower db f) (u ".pdf").

(** [analyze_bills_in_folder]: the pair returned and the lines printed.
    An error of [os.listdir] is not caught by the program. *)
Definition analyze_bills_in_folder (db : unicode_db) (sys : system)
  (folder_path : str) : result ((nat * series) * list str) :=
  match listdir sys folder_path with
  | Raise e => Raise e
  | Ok names =>
    let pdf_files := filter (fun f => is_pdf db f = true) names in
    match pdf_files with
    | [] => Ok ((0%nat, []), [u "錯誤：在指定資料夾中找不到任何 PDF 檔案。"])
    | _ :: _ =>
      let out :=
        [u "找到 " ++ str_of_nat (length pdf_files) ++ u " 個 PDF 檔案，開始分析..."] in
      let '(all_swaps, out) :=
        foldl (process_file db sys folder_path) ([], out) pdf_files in
      let out := out ++ [u "分析完成！"] in
      match all_swaps with
      | [] => Ok ((0%nat, []), out ++ [u "警告：未能在 PDF 檔案中提取到任何換電紀錄。"])
      | _ :: _ => Ok ((length all_swaps, value_counts all_swaps), out)
      end
    end
  end.

(** ** Charting *)

(** A bar of the chart, as [bars.patches] gives it. *)
Record bar := { get_width : Q; get_y : Q; get_height : Q }.

(** The calls the charting code makes, in the order of the source. *)
Inductive call :=
| Print (line : str)
| SetFontSansSerif (families : list str)
| SetUnicodeMinus (on : bool)
| Figure (width height : nat)
| PlotBarh (data : series)
| Title (label : str)
| XLabel (label : str)
| YLabel (label : str)
| Grid
| Text (x y : Q) (label : str)
| TightLayout
| SaveFig (filename : str).

(** The plotting libraries: which of their calls raise (with the text of
    the exception), and the bars that a bar chart of a series has. *)
Record backend := {
  raises : call -> option str;
  patches : series -> list bar
}.

(** Computations that make calls and may raise: the calls made so far are
    threaded through, and kept when an exception ends the computation. *)
Definition plt (A : Type) : Type := list call -> list call * result A.

Definition ret {A} (a : A) : plt A := fun tr => (tr, Ok a).

Definition bind {A B} (m : plt A) (f : A -> plt B) : plt B :=
  fun tr =>
    match m tr with
    | (tr', Ok a) => f a tr'
    | (tr', Raise e) => (tr', Raise e)
    end.

Notation "m >> k" := (bind m (fun _ => k)) (at level 90, right associativity).

(** [print] writes a line; a library call may raise. *)
Definition say (line : str) : plt unit := fun tr => (tr ++ [Print line], Ok tt).

Definition lib (be : backend) (c : call) : plt unit :=
  fun tr =>
    match raises be c with
    | Some e => (tr ++ [c], Raise e)
    | None => (tr ++ [c], Ok tt)
    end.

(** [try: m except Exception: h]. *)
Definition try_except {A} (m h : plt A) : plt A :=
  fun tr =>
    match m tr with
    | (tr', Raise _) => h tr'
    | r => r
    end.

Fixpoint for_each {A} (l : list A) (body : A -> plt unit) : plt unit :=
  match l with
  | [] => ret tt
  | a :: l' => body a >> for_each l' body
  end.

(** [int(x)] of a float and the digits of an integer. *)
Definition py_int (q : Q) : Z := Z.quot (Qnum q) (Z.pos (Qden q)).

Definition str_of_Z (z : Z) : str :=
  if (z <? 0)%Z then 45 :: str_of_nat (Z.abs_nat z) else str_of_nat (Z.abs_nat z).

(** [s.sort_values(ascending=True)]. *)
Definition by_count_asc (a b : str * nat) : Prop := (snd a <= snd b)%nat.

#[global] Instance by_count_asc_dec (a b : str * nat) : Decision (by_count_asc a b) :=
  decide (snd a <= snd b)%nat.

Definition sort_values (s : series) : series := merge_sort by_count_asc s.

Definition default_output_filename : str := u "Gogoro換電分析報告.png".

(** [plot_and_save_analysis]. *)
Definition plot_and_save_analysis (be : backend) (station_counts : series)
  (output_filename : str) : plt unit :=
  match station_counts with
  | [] => say (u "沒有資料可供繪圖。")
  | _ :: _ =>
    let frequent_stations :=
      filter (fun p => (1 < snd p)%nat) station_counts in
    try_except
      (lib be (SetFontSansSerif [u "Microsoft JhengHei"]) >>
       lib be (SetUnicodeMinus false))
      (say (u "警告：找不到 'Microsoft JhengHei' 字體，圖表中的中文可能無法正常顯示。") >>
       say (u "您可以修改程式碼中的字體設定。") >>
       lib be (SetFontSansSerif [u "sans-serif"])) >>
    lib be (Figure 12 10) >>
    let plot_data := sort_values frequent_stations in
    lib be (PlotBarh plot_data) >>
    let bars := patches be plot_data in
    lib be (Title (u "Gogoro 電池交換站點分析 (交換次數 > 1)")) >>
    lib be (XLabel (u "交換次數")) >>
    lib be (YLabel (u "電池交換站")) >>
    lib be Grid >>
    for_each bars (fun b =>
      lib be (Text (get_width b + 0.2) (get_y b + get_height b / 2)
                   (str_of_Z (py_int (get_width b))))) >>
    lib be TightLayout >>
    lib be (SaveFig output_filename) >>
    say (10 :: u "分析圖表已儲存為 '" ++ output_filename ++ u "'")
  end.


(** * Properties *)

(** ** Strings *)

Definition substring (t s : str) : Prop := exists a b, s = a ++ t ++ b.

Lemma startswith_spec (s p : str) :
  startswith s p = true <-> exists t, s = p ++ t.
Proof.
  revert s. induction p as [|a p IH]; intros s; simpl.
  - split; [eauto | intros _; destruct s; reflexivity].
  - destruct s as [|b s]; simpl.
    + split; [discriminate | intros [t Ht]; discriminate].
    + rewrite andb_true_iff, N.eqb_eq, IH. split.
      * intros [-> [t ->]]. eauto.
      * intros [t Ht]. injection Ht as -> ->. eauto.
Qed.

Lemma str_in_spec (p s : str) : str_in p s = true <-> substring p s.
Proof.
  unfold substring. induction s as [|c s IH]; cbn [str_in].
  - rewrite orb_false_r, startswith_spec. split.
    + intros [t Ht]. exists [], t. exact Ht.
    + intros [a [b Hab]]. destruct a; [simpl in Hab; eauto | discriminate].
  - rewrite orb_true_iff, startswith_spec, IH. split.
    + intros [[t Ht] | [a [b Hab]]].
      * exists [], t. exact Ht.
      * exists (c :: a), b. simpl. congruence.
    + intros [a [b Hab]]. destruct a as [|c' a]; simpl in Hab.
      * left. eauto.
      * right. injection Hab as -> ->. eauto.
Qed.

Lemma str_in_false_infix (p s a y b : str) :
  str_in p s = false -> s = a ++ y ++ b -> str_in p y = false.
Proof.
  intros Hs ->. destruct (str_in p y) eqn:Hy; [|reflexivity].
  apply str_in_spec in Hy as [a' [b' ->]].
  assert (str_in p (a ++ (a' ++ p ++ b') ++ b) = true) as H; [|congruence].
  apply str_in_spec. exists (a ++ a'), (b' ++ b).
  repeat rewrite <- app_assoc. reflexivity.
Qed.

(** ** The row classifier *)

(** A text of the shape two digits, a colon, two digits, a colon, two
    digits, a digit being whatever [\d] matches. *)
Definition time_shaped (db : unicode_db) (t : str) : Prop :=
  exists a b c d e f,
    t = [a; b; 58; c; d; 58; e; f]
    /\ digit db a = true /\ digit db b = true /\ digit db c = true
    /\ digit db d = true /\ digit db e = true /\ digit db f = true.

Ltac eat_class H :=
  match type of H with
  | context [match ?s with [] => _ | _ :: _ => _ end] =>
    destruct s as [|? ?]; [discriminate H|]; simpl in H
  end;
  match type of H with
  | context [if ?b then _ else _] =>
    let E := fresh "E" in destruct b eqn:E; [|discriminate H]
  end.

Lemma time_match (db : unicode_db) (s rest : str) :
  re_match (time_pattern db) s = Some rest <->
  exists t, time_shaped db t /\ s = t ++ rest.
Proof.
  unfold re_match, time_pattern. split.
  - intros H. simpl in H.
    do 8 eat_class H.
    apply N.eqb_eq in E1, E4. subst. injection H as ->.
    match goal with
    | |- context [?a :: ?b :: 58 :: ?c :: ?d :: 58 :: ?e :: ?f :: rest] =>
      exists [a; b; 58; c; d; 58; e; f]
    end.
    split; [|reflexivity].
    unfold time_shaped. eauto 20.
  - intros [t [[a [b [c [d [e [f [-> [Ha [Hb [Hc [Hd [He Hf]]]]]]]]]]]] ->]].
    simpl. rewrite Ha, Hb, Hc, Hd, He, Hf. reflexivity.
Qed.

Lemma time_search (db : unicode_db) (s : str) :
  re_search (time_pattern db) s = true <->
  exists t, time_shaped db t /\ substring t s.
Proof.
  induction s as [|c s IH]; cbn [re_search].
  - destruct (re_match (time_pattern db) []) eqn:E.
    + apply time_match in E as [t [Ht E]]. split; [|reflexivity].
      intros _. exists t. split; [assumption|]. exists [], l. exact E.
    + split; [discriminate|]. intros [t [Ht [a [b Hab]]]].
      destruct Ht as [? [? [? [? [? [? [-> _]]]]]]].
      destruct a; discriminate.
  - destruct (re_match (time_pattern db) (c :: s)) eqn:E.
    + apply time_match in E as [t [Ht E]]. split; [|reflexivity].
      intros _. exists t. split; [assumption|]. exists [], l. exact E.
    + rewrite IH. split.
      * intros [t [Ht [a [b Hab]]]]. exists t. split; [assumption|].
        exists (c :: a), b. simpl. congruence.
      * intros [t [Ht [a [b Hab]]]]. destruct a as [|c' a]; simpl in Hab.
        -- assert (re_match (time_pattern db) (c :: s) = Some b) as E'
             by (apply time_match; eauto).
           congruence.
        -- injection Hab as -> ->. exists t. split; [assumption|].
           exists a, b. reflexivity.
Qed.

Lemma swap_row_anchors (db : unicode_db) (row_text : str) :
  is_swap_row db row_text = true <->
  (exists t, time_shaped db t /\ substring t row_text)
  /\ substring UNIT_MARKER row_text.
Proof.
  unfold is_swap_row.
  rewrite andb_true_iff, time_search, str_in_spec. reflexivity.
Qed.

(** C2. The row classifier accepts a row text exactly when it contains a
    text of the shape digit digit colon digit digit colon digit digit
    (with no check of the values) and contains the unit marker; a row
    that lacks either one is rejected. *)
Theorem is_swap_row_iff (db : unicode_db) (row_text : str) :
  (is_swap_row db row_text = true <->
   (exists t, time_shaped db t /\ substring t row_text)
   /\ substring UNIT_MARKER row_text)
  /\ (is_swap_row db row_text = false <->
      ~ (exists t, time_shaped db t /\ substring t row_text)
      \/ ~ substring UNIT_MARKER row_text).
Proof.
  split; [apply swap_row_anchors|].
  unfold is_swap_row. rewrite andb_false_iff.
  rewrite <- !not_true_iff_false, time_search, str_in_spec. reflexivity.
Qed.

(** ** Row reconstruction *)

(** The row key of a word, and the texts of the words of one key in the
    order of the word list. *)
Definition row_key (w : word) : Z := py_round (word_y0 w).

Definition texts_at (y : Z) (words : list word) : list str :=
  word_text <$> filter (fun w => row_key w = y) words.

Lemma py_round_nearest (q : Q) : (Qabs (q - inject_Z (py_round q)) <= 1 # 2)%Q.
Proof.
  unfold py_round.
  pose proof (Qfloor_le q) as Hlo. pose proof (Qlt_floor q) as Hhi.
  rewrite inject_Z_plus in Hhi. change (inject_Z 1) with 1%Q in Hhi.
  apply Qabs_Qle_condition.
  destruct (q - inject_Z (Qfloor q) ?= 1 # 2)%Q eqn:E.
  - apply Qeq_alt in E. destruct (Z.even (Qfloor q));
      [|rewrite inject_Z_plus; change (inject_Z 1) with 1%Q];
      generalize dependent (inject_Z (Qfloor q)); intros f ? ? ?; split; lra.
  - apply Qlt_alt in E.
    generalize dependent (inject_Z (Qfloor q)); intros f ? ? ?; split; lra.
  - apply Qgt_alt in E. rewrite inject_Z_plus. change (inject_Z 1) with 1%Q.
    generalize dependent (inject_Z (Qfloor q)); intros f ? ? ?; split; lra.
Qed.

Lemma texts_at_snoc (y : Z) (words : list word) (w : word) :
  texts_at y (words ++ [w]) =
  texts_at y words ++ (if decide (row_key w = y) then [word_text w] else []).
Proof.
  unfold texts_at. rewrite filter_app, fmap_app. f_equal.
  rewrite filter_cons, filter_nil. destruct (decide (row_key w = y)); reflexivity.
Qed.

Lemma group_words_lookup (words : list word) (y : Z) :
  group_words words !! y =
  match texts_at y words with [] => None | l => Some l end.
Proof.
  unfold group_words. induction words as [|w words IH] using rev_ind.
  - reflexivity.
  - rewrite foldl_snoc, texts_at_snoc. unfold add_word at 1.
    fold (row_key w). destruct (decide (row_key w = y)) as [->|Hne].
    + rewrite lookup_insert_eq, IH.
      destruct (texts_at _ words); reflexivity.
    + rewrite lookup_insert_ne by exact Hne. rewrite IH, app_nil_r. reflexivity.
Qed.

Lemma sorted_keys_elem (rows : gmap Z (list str)) (y : Z) :
  y ∈ sorted_keys rows <-> is_Some (rows !! y).
Proof.
  unfold sorted_keys. rewrite merge_sort_Permutation, list_elem_of_fmap. split.
  - intros [[k l] [-> Hkl]]. apply elem_of_map_to_list in Hkl. eauto.
  - intros [l Hl]. exists (y, l). split; [reflexivity|].
    apply elem_of_map_to_list. exact Hl.
Qed.

Lemma strictly_sorted (l : list Z) :
  StronglySorted Z.le l -> NoDup l -> StronglySorted Z.lt l.
Proof.
  induction 1 as [|x l Hs IH Hall]; intros Hnd; constructor.
  - apply IH. eapply NoDup_cons_1_2. exact Hnd.
  - apply NoDup_cons in Hnd as [Hx _].
    rewrite Forall_forall in Hall |- *. intros z Hz.
    specialize (Hall z Hz). assert (x <> z) by (intros ->; contradiction).
    lia.
Qed.

Lemma sorted_keys_ascending (rows : gmap Z (list str)) :
  StronglySorted Z.lt (sorted_keys rows).
Proof.
  apply strictly_sorted.
  - apply StronglySorted_merge_sort; apply _.
  - unfold sorted_keys. rewrite merge_sort_Permutation.
    apply NoDup_fst_map_to_list.
Qed.

Lemma page_rows_keys (words : list word) :
  (page_rows words).*1 = sorted_keys (group_words words).
Proof.
  unfold page_rows. rewrite <- list_fmap_compose. apply list_fmap_id.
Qed.

(** C3. The rows of a page: their keys are strictly ascending (so each
    key is the key of one row only); every word has a row whose key is
    its top coordinate rounded to the nearest integer; and the text of a
    row is the texts of exactly the words of that key, in the order of
    the word list, joined with nothing between them. *)
Theorem page_rows_spec (words : list word) :
  StronglySorted Z.lt (page_rows words).*1
  /\ (forall w, w ∈ words -> row_key w ∈ (page_rows words).*1)
  /\ (forall y t, (y, t) ∈ page_rows words ->
        (exists w, w ∈ words /\ row_key w = y)
        /\ t = concat (word_text <$> filter (fun w => row_key w = y) words))
  /\ (forall w, (Qabs (word_y0 w - inject_Z (row_key w)) <= 1 # 2)%Q).
Proof.
  rewrite page_rows_keys. repeat split.
  - apply sorted_keys_ascending.
  - intros w Hw. apply sorted_keys_elem. rewrite group_words_lookup.
    assert (word_text w ∈ texts_at (row_key w) words) as Hin.
    { unfold texts_at. apply list_elem_of_fmap. exists w. split; [reflexivity|].
      apply list_elem_of_filter. split; [reflexivity | exact Hw]. }
    destruct (texts_at (row_key w) words); [inversion Hin | eauto].
  - unfold page_rows in H. apply list_elem_of_fmap in H as [y' [Heq Hy']].
    injection Heq as -> _. apply sorted_keys_elem in Hy' as [l Hl].
    rewrite group_words_lookup in Hl. unfold texts_at in Hl.
    destruct (filter (fun w => row_key w = y') words) as [|w ws] eqn:Hf;
      [discriminate Hl|].
    assert (w ∈ filter (fun w => row_key w = y') words) as Hw
      by (rewrite Hf; left).
    apply list_elem_of_filter in Hw as [Hk Hw]. eauto.
  - unfold page_rows in H. apply list_elem_of_fmap in H as [y' [Heq Hy']].
    injection Heq as -> ->. apply sorted_keys_elem in Hy' as [l Hl].
    rewrite Hl. rewrite group_words_lookup in Hl.
    fold (texts_at y' words).
    destruct (texts_at y' words); [discriminate Hl|].
    injection Hl as <-. reflexivity.
  - intros w. apply py_round_nearest.
Qed.

(** ** The matcher *)

Lemma greedy_sound (p : N -> bool) (s : str) (k : str -> option str) (r : str) :
  greedy p s k = Some r ->
  exists n, Forall (fun c => p c = true) (take n s) /\ k (drop n s) = Some r.
Proof.
  induction s as [|c s IH]; simpl; intros H.
  - exists 0%nat. split; [constructor | exact H].
  - destruct (p c) eqn:Hc.
    + destruct (greedy p s k) as [r'|] eqn:Hg.
      * injection H as ->. destruct (IH eq_refl) as [n [Hall Hk]].
        exists (S n). simpl. split; [constructor; assumption | exact Hk].
      * exists 0%nat. split; [constructor | exact H].
    + exists 0%nat. split; [constructor | exact H].
Qed.

Lemma greedy_complete (p : N -> bool) (s : str) (k : str -> option str)
  (n : nat) (r : str) :
  Forall (fun c => p c = true) (take n s) -> k (drop n s) = Some r ->
  is_Some (greedy p s k).
Proof.
  revert n. induction s as [|c s IH]; intros n Hall Hk.
  - rewrite drop_nil in Hk. simpl. eauto.
  - destruct n as [|n]; simpl in *.
    + destruct (p c); [destruct (greedy p s k)|]; eauto.
    + inversion Hall as [|? ? Hc Hall']; subst. rewrite Hc.
      destruct (IH n Hall' Hk) as [r' ->]. eauto.
Qed.

(** A whole run followed by a character outside the class: the longest
    repetition is tried first, so a continuation that accepts there wins. *)
Lemma greedy_first (p : N -> bool) (ws t : str) (k : str -> option str) (r : str) :
  Forall (fun c => p c = true) ws ->
  match t with [] => True | c :: _ => p c = false end ->
  k t = Some r -> greedy p (ws ++ t) k = Some r.
Proof.
  intros Hws Ht Hk. induction Hws as [|c ws Hc _ IH]; simpl.
  - destruct t as [|c t]; [exact Hk|]. simpl. rewrite Ht. exact Hk.
  - rewrite Hc, IH. reflexivity.
Qed.

Lemma exec_lit (w s : str) (k : str -> option str) (r : str) :
  exec (lit w) s k = Some r <-> exists rest, s = w ++ rest /\ k rest = Some r.
Proof.
  revert s. induction w as [|c w IH]; intros s; simpl.
  - split; [eauto | intros [rest [-> H]]; exact H].
  - destruct s as [|x s].
    + split; [discriminate | intros [rest [H _]]; discriminate].
    + destruct (N.eqb_spec x c) as [->|Hne].
      * rewrite IH. split.
        -- intros [rest [-> H]]. eauto.
        -- intros [rest [Heq H]]. injection Heq as ->. eauto.
      * split; [discriminate | intros [rest [Heq _]]; congruence].
Qed.

Lemma exec_alt (r1 r2 : regex) (s : str) (k : str -> option str) (r : str) :
  exec (Alt r1 r2) s k = Some r ->
  exec r1 s k = Some r \/ exec r2 s k = Some r.
Proof. simpl. destruct (exec r1 s k); intros H; [left | right]; exact H. Qed.

Lemma exec_alt_complete (r1 r2 : regex) (s : str) (k : str -> option str) :
  is_Some (exec r1 s k) \/ is_Some (exec r2 s k) ->
  is_Some (exec (Alt r1 r2) s k).
Proof.
  simpl. destruct (exec r1 s k); [eauto|]. intros [[? H]|H]; [discriminate H | exact H].
Qed.

Lemma suffix_alt_sound (s : str) (k : str -> option str) (r : str) :
  exec suffix_alt s k = Some r ->
  exists tok rest, tok ∈ suffixes /\ s = tok ++ rest /\ k rest = Some r.
Proof.
  unfold suffix_alt, suffixes. intros H.
  repeat (apply exec_alt in H as [H|H]);
    apply exec_lit in H as [rest [-> H]];
    eexists _, rest; (split; [|split; [reflexivity | exact H]]);
    repeat first [apply list_elem_of_here | apply list_elem_of_further].
Qed.

Lemma suffix_alt_complete (tok rest : str) (k : str -> option str) (r : str) :
  tok ∈ suffixes -> k rest = Some r -> is_Some (exec suffix_alt (tok ++ rest) k).
Proof.
  unfold suffix_alt, suffixes. intros Htok Hk.
  assert (forall w, w = tok -> is_Some (exec (lit w) (tok ++ rest) k)) as Hlit.
  { intros w ->. exists r. apply exec_lit. eauto. }
  repeat (apply elem_of_cons in Htok as [->|Htok]);
    [..|inversion Htok];
    repeat first
      [ apply Hlit; reflexivity
      | apply exec_alt_complete; first [left; apply Hlit; reflexivity | right] ].
Qed.

(** A match of the station pattern: a non-empty run of class characters
    followed by one of the suffix words. *)
Lemma station_match_sound (db : unicode_db) (t rest : str) :
  re_match (station_pattern db) t = Some rest ->
  exists run tok,
    t = run ++ tok ++ rest /\ run <> []
    /\ Forall (fun c => station_char db c = true) run /\ tok ∈ suffixes.
Proof.
  unfold re_match, station_pattern. simpl.
  destruct t as [|x t]; [discriminate|].
  destruct (station_char db x) eqn:Hx; [|discriminate].
  intros H. apply greedy_sound in H as [n [Hall H]].
  apply suffix_alt_sound in H as [tok [rest' [Htok [Hdrop Hrest]]]].
  injection Hrest as ->.
  exists (x :: take n t), tok. repeat split.
  - simpl. rewrite <- Hdrop, take_drop. reflexivity.
  - discriminate.
  - constructor; assumption.
  - exact Htok.
Qed.

Lemma station_match_complete (db : unicode_db) (run tok rest : str) :
  run <> [] -> Forall (fun c => station_char db c = true) run ->
  tok ∈ suffixes ->
  is_Some (re_match (station_pattern db) (run ++ tok ++ rest)).
Proof.
  intros Hne Hall Htok. unfold re_match, station_pattern. simpl.
  destruct run as [|x run]; [contradiction|].
  inversion Hall as [|? ? Hx Hall']; subst. simpl. rewrite Hx.
  destruct (suffix_alt_complete tok rest Some rest Htok eq_refl) as [r Hr].
  apply (greedy_complete _ _ _ (length run) r).
  - rewrite take_app_length. exact Hall'.
  - rewrite drop_app_length. exact Hr.
Qed.

Lemma matched_app (pre rest : str) : matched (pre ++ rest) rest = pre.
Proof.
  unfold matched. rewrite length_app.
  replace (length pre + length rest - length rest)%nat with (length pre) by lia.
  apply take_app_length.
Qed.

(** Every text that [findall] returns is a match at some position. *)
Lemma findall_from_elem (r : regex) (s : str) (skip : nat) (c : str) :
  c ∈ findall_from r s skip ->
  exists pre t rest, s = pre ++ t /\ re_match r t = Some rest /\ c = matched t rest.
Proof.
  revert skip. induction s as [|a s IH]; intros skip H.
  - destruct skip; simpl in H; [|inversion H].
    destruct (re_match r []) as [rest|] eqn:E; [|inversion H].
    apply list_elem_of_singleton in H. exists [], [], rest. auto.
  - assert (forall n, c ∈ findall_from r s n ->
        exists pre t rest, a :: s = pre ++ t /\ re_match r t = Some rest
                           /\ c = matched t rest) as Htl.
    { intros n Hn. destruct (IH n Hn) as [pre [t [rest [-> [Hm Hc]]]]].
      exists (a :: pre), t, rest. auto. }
    destruct skip; cbn [findall_from] in H; [|eauto].
    destruct (re_match r (a :: s)) as [rest|] eqn:E; [|eauto].
    apply elem_of_cons in H as [->|H]; [|eauto].
    exists [], (a :: s), rest. auto.
Qed.

(** ** Stripping *)

(** A text with no whitespace at its end. *)
Definition no_space_at_end (x : str) : Prop :=
  forall pre c, x = pre ++ [c] -> isspace c = false.

Lemma lstrip_head (s : str) (z : N) (t : str) :
  lstrip s = z :: t -> isspace z = false.
Proof.
  induction s as [|c s IH]; simpl; [discriminate|].
  destruct (isspace c) eqn:Hc; [exact IH|]. intros H. injection H as <- _. exact Hc.
Qed.

Lemma lstrip_suffix (s : str) : exists a, s = a ++ lstrip s.
Proof.
  induction s as [|c s [a IH]]; simpl.
  - exists []. reflexivity.
  - destruct (isspace c).
    + exists (c :: a). simpl. congruence.
    + exists []. reflexivity.
Qed.

Lemma lstrip_fixed (c : N) (s : str) : isspace c = false -> lstrip (c :: s) = c :: s.
Proof. simpl. intros ->. reflexivity. Qed.

Lemma rstrip_prefix (s : str) : exists b, s = rstrip s ++ b.
Proof.
  unfold rstrip. destruct (lstrip_suffix (rev s)) as [a Ha].
  exists (rev a). rewrite <- rev_app_distr, <- Ha. symmetry. apply rev_involutive.
Qed.

Lemma rstrip_no_space_at_end (s : str) : no_space_at_end (rstrip s).
Proof.
  unfold no_space_at_end, rstrip. intros pre c H.
  apply (f_equal (@rev N)) in H. rewrite rev_involutive, rev_app_distr in H.
  simpl in H. eapply lstrip_head. exact H.
Qed.

Lemma strip_no_space_at_end (s : str) : no_space_at_end (strip s).
Proof. apply rstrip_no_space_at_end. Qed.

Lemma strip_infix (s : str) : exists a b, s = a ++ strip s ++ b.
Proof.
  unfold strip. destruct (lstrip_suffix s) as [a Ha].
  destruct (rstrip_prefix (lstrip s)) as [b Hb].
  exists a, b. rewrite <- Hb. exact Ha.
Qed.

Lemma rstrip_fixed (x : str) : no_space_at_end x -> rstrip x = x.
Proof.
  unfold no_space_at_end, rstrip. intros H.
  destruct x as [|c x _] using rev_ind; [reflexivity|].
  rewrite rev_app_distr. change (rev [c] ++ rev x) with (c :: rev x).
  rewrite lstrip_fixed by (eapply H; reflexivity).
  simpl. rewrite rev_involutive. reflexivity.
Qed.

(** ** The pattern of the clean-up *)

Lemma bay_letter_cases (c : N) :
  bay_letter c = true -> c = 65 \/ c = 66 \/ c = 67 \/ c = 68.
Proof.
  unfold bay_letter. rewrite andb_true_iff, !N.leb_le. lia.
Qed.

Lemma bay_letter_not_space (c : N) : bay_letter c = true -> isspace c = false.
Proof.
  intros H. apply bay_letter_cases in H as [->|[->|[->| ->]]]; reflexivity.
Qed.

Lemma bay_match_sound (s rest : str) :
  re_match bay_pattern s = Some rest ->
  exists ws L,
    s = ws ++ L :: rest /\ ws <> []
    /\ Forall (fun c => isspace c = true) ws /\ bay_letter L = true
    /\ (rest = [] \/ rest = [10]).
Proof.
  unfold re_match, bay_pattern. simpl.
  destruct s as [|x s]; [discriminate|].
  destruct (isspace x) eqn:Hx; [|discriminate].
  intros H. apply greedy_sound in H as [n [Hall H]].
  destruct (drop n s) as [|L t] eqn:Hd; [discriminate|].
  destruct (bay_letter L) eqn:HL; [|discriminate].
  exists (x :: take n s), L.
  assert (x :: s = (x :: take n s) ++ L :: t) as Hs
    by (simpl; rewrite <- Hd, take_drop; reflexivity).
  destruct t as [|nl [|? ?]].
  - injection H as <-. repeat split; auto; discriminate.
  - destruct (N.eqb_spec nl 10) as [->|Hne].
    + injection H as <-. repeat split; auto; discriminate.
    + destruct nl as [|[?|?|]]; try discriminate H.
      repeat (match goal with p : positive |- _ => destruct p end;
              try discriminate H); contradiction.
  - destruct nl as [|[?|?|]]; try discriminate H;
      repeat (match goal with p : positive |- _ => destruct p end;
              try discriminate H).
Qed.

Lemma bay_match_complete (ws : str) (L : N) :
  ws <> [] -> Forall (fun c => isspace c = true) ws -> bay_letter L = true ->
  re_match bay_pattern (ws ++ [L]) = Some [].
Proof.
  intros Hne Hws HL. unfold re_match, bay_pattern. simpl.
  destruct ws as [|x ws]; [contradiction|].
  inversion Hws as [|? ? Hx Hws']; subst. simpl. rewrite Hx.
  apply greedy_first.
  - exact Hws'.
  - apply bay_letter_not_space. exact HL.
  - simpl. rewrite HL. reflexivity.
Qed.

Lemma sub_from_skip_all (r : regex) (s : str) (skip : nat) :
  (length s <= skip)%nat -> sub_from r s skip = [].
Proof.
  revert skip. induction s as [|c s IH]; intros skip H.
  - destruct skip; reflexivity.
  - destruct skip; simpl in H; [lia|]. cbn [sub_from]. apply IH. lia.
Qed.

(** Where no position has a match, [re.sub] gives the text back. *)
Lemma sub_from_id (r : regex) (s : str) :
  (forall pre t, s = pre ++ t -> t <> [] -> re_match r t = None) ->
  sub_from r s 0 = s.
Proof.
  induction s as [|c s IH]; intros H; [reflexivity|].
  cbn [sub_from]. rewrite (H [] (c :: s)) by (reflexivity || discriminate).
  f_equal. apply IH. intros pre t -> Ht. apply (H (c :: pre)); [reflexivity | exact Ht].
Qed.

Lemma no_space_no_newline (x pre : str) : no_space_at_end x -> x <> pre ++ [10].
Proof. intros H ->. specialize (H pre 10 eq_refl). discriminate H. Qed.

Lemma no_space_at_end_tail (c : N) (x : str) :
  no_space_at_end (c :: x) -> no_space_at_end x.
Proof. intros H pre z ->. apply (H (c :: pre) z). reflexivity. Qed.

(** On a text with no whitespace at its end, a match of the clean-up
    pattern runs to the end of the text. *)
Lemma bay_match_to_end (x pre t rest : str) :
  no_space_at_end x -> x = pre ++ t -> re_match bay_pattern t = Some rest ->
  rest = []
  /\ exists ws w L, t = ws ++ [w; L] /\ Forall (fun c => isspace c = true) ws
                    /\ isspace w = true /\ bay_letter L = true.
Proof.
  intros Hx -> Hm.
  apply bay_match_sound in Hm as [ws [L [-> [Hne [Hws [HL Hrest]]]]]].
  destruct Hrest as [->| ->].
  - split; [reflexivity|].
    destruct ws as [|w ws _] using rev_ind; [contradiction|].
    apply Forall_app in Hws as [Hws Hw]. inversion Hw; subst.
    exists ws, w, L. rewrite <- app_assoc. auto.
  - exfalso. apply (no_space_no_newline _ (pre ++ ws ++ [L]) Hx).
    repeat rewrite <- app_assoc. reflexivity.
Qed.

Lemma bay_sub_prefix (x : str) :
  no_space_at_end x -> exists k, sub_from bay_pattern x 0 = take k x.
Proof.
  induction x as [|c x IH]; intros Hx.
  - exists 0%nat. reflexivity.
  - cbn [sub_from]. destruct (re_match bay_pattern (c :: x)) as [rest|] eqn:E.
    + destruct (bay_match_to_end (c :: x) [] (c :: x) rest Hx eq_refl E) as [-> _].
      exists 0%nat. simpl. apply sub_from_skip_all. lia.
    + destruct (IH (no_space_at_end_tail c x Hx)) as [k Hk].
      exists (S k). simpl. rewrite Hk. reflexivity.
Qed.

(** A text that ends with whitespace and one of the letters A to D: the
    clean-up pattern removes the whole whitespace run and the letter. *)
Lemma bay_sub_strips (p ws : str) (L : N) :
  ws <> [] -> Forall (fun c => isspace c = true) ws -> bay_letter L = true ->
  no_space_at_end p ->
  re_sub_empty bay_pattern (p ++ ws ++ [L]) = p.
Proof.
  intros Hne Hws HL. unfold re_sub_empty. induction p as [|c p IH]; intros Hp.
  - simpl app. destruct ws as [|w ws]; [contradiction|].
    change ((w :: ws) ++ [L]) with (w :: (ws ++ [L])) at 1.
    cbn [sub_from].
    change (w :: (ws ++ [L])) with ((w :: ws) ++ [L]).
    rewrite (bay_match_complete (w :: ws) L Hne Hws HL).
    simpl. apply sub_from_skip_all. lia.
  - change ((c :: p) ++ ws ++ [L]) with (c :: (p ++ ws ++ [L])).
    cbn [sub_from].
    destruct (re_match bay_pattern (c :: p ++ ws ++ [L])) as [rest|] eqn:E.
    + exfalso. apply bay_match_sound in E as [ws' [L' [Heq [_ [Hws' [_ Hrest]]]]]].
      destruct Hrest as [->| ->].
      * change (c :: p ++ ws ++ [L]) with ((c :: p) ++ ws ++ [L]) in Heq.
        rewrite app_assoc in Heq. apply app_inj_tail in Heq as [Heq _].
        subst ws'. apply Forall_app in Hws' as [Hcp _].
        destruct (exists_last (l := c :: p)) as [q [z Hq]]; [discriminate|].
        rewrite Hq in Hcp. apply Forall_app in Hcp as [_ Hz].
        inversion Hz as [|? ? Hz' _]; subst.
        rewrite (Hp q z Hq) in Hz'. discriminate Hz'.
      * change (c :: p ++ ws ++ [L]) with ((c :: p) ++ ws ++ [L]) in Heq.
        change (ws' ++ [L'; 10]) with (ws' ++ [L'] ++ [10]) in Heq.
        rewrite !app_assoc in Heq. apply app_inj_tail in Heq as [_ ->].
        discriminate HL.
    + f_equal. apply IH. eapply no_space_at_end_tail. exact Hp.
Qed.

(** A text that does not end so is left as it is. *)
Definition ends_with_bay (x : str) : Prop :=
  exists pre w L, x = pre ++ [w; L] /\ isspace w = true /\ bay_letter L = true.

Lemma bay_sub_id (x : str) :
  no_space_at_end x -> ~ ends_with_bay x -> re_sub_empty bay_pattern x = x.
Proof.
  intros Hx Hnot. apply sub_from_id. intros pre t Heq _.
  destruct (re_match bay_pattern t) as [rest|] eqn:E; [|reflexivity].
  exfalso. apply Hnot.
  destruct (bay_match_to_end x pre t rest Hx Heq E)
    as [_ [ws [w [L [-> [_ [Hw HL]]]]]]].
  exists (pre ++ ws), w, L. rewrite <- app_assoc. auto.
Qed.

Lemma rstrip_cons (z : N) (t : str) :
  isspace z = false -> rstrip (z :: t) = z :: rstrip t.
Proof.
  intros Hz. unfold rstrip. simpl rev at 2.
  assert (forall a, lstrip (a ++ [z]) = lstrip a ++ [z]) as Hl.
  { induction a as [|c a IH]; simpl; [rewrite Hz; reflexivity|].
    destruct (isspace c); [exact IH | reflexivity]. }
  rewrite Hl, rev_app_distr. reflexivity.
Qed.

Lemma strip_idem (s : str) : strip (strip s) = strip s.
Proof.
  unfold strip at 2 3. destruct (lstrip s) as [|z t] eqn:E; [reflexivity|].
  pose proof (lstrip_head s z t E) as Hz.
  rewrite rstrip_cons by exact Hz. unfold strip.
  rewrite lstrip_fixed by exact Hz.
  rewrite <- (rstrip_cons z t Hz). apply rstrip_fixed, rstrip_no_space_at_end.
Qed.

(** ** Candidates *)

Lemma suffix_ends (tok : str) :
  tok ∈ suffixes ->
  (exists h tl, tok = h :: tl /\ isspace h = false)
  /\ (exists ini z, tok = ini ++ [z] /\ isspace z = false /\ bay_letter z = false).
Proof.
  unfold suffixes. intros H.
  repeat (apply elem_of_cons in H as [->|H]); [..|inversion H];
    (split;
     [ eexists _, _; split; reflexivity
     | match goal with
       | |- exists ini z, ?t = _ /\ _ =>
         exists (removelast t), (List.last t 0); repeat split; reflexivity
       end ]).
Qed.

(** A candidate is a run followed by a suffix word, and stripping it
    only drops whitespace in front of the run. *)
Lemma strip_candidate (run tok : str) :
  tok ∈ suffixes ->
  strip (run ++ tok) = lstrip run ++ tok
  /\ no_space_at_end (lstrip run ++ tok)
  /\ ~ ends_with_bay (lstrip run ++ tok).
Proof.
  intros Htok.
  destruct (suffix_ends tok Htok) as [[h [tl [Hh Hsp]]] [ini [z [Hz [Hzs Hzb]]]]].
  assert (lstrip (run ++ tok) = lstrip run ++ tok) as Hl.
  { induction run as [|c run IH]; simpl.
    - rewrite Hh. apply lstrip_fixed. exact Hsp.
    - destruct (isspace c); [exact IH | reflexivity]. }
  assert (no_space_at_end (lstrip run ++ tok)) as Hend.
  { intros pre c Heq. rewrite Hz, app_assoc in Heq.
    apply app_inj_tail in Heq as [_ <-]. exact Hzs. }
  repeat split.
  - unfold strip. rewrite Hl. apply rstrip_fixed. exact Hend.
  - exact Hend.
  - intros [pre [w [L [Heq [_ HL]]]]].
    rewrite Hz, app_assoc in Heq.
    change (pre ++ [w; L]) with (pre ++ [w] ++ [L]) in Heq.
    rewrite (app_assoc pre) in Heq.
    apply app_inj_tail in Heq as [_ ->]. congruence.
Qed.

Lemma candidate_shape (db : unicode_db) (row_text c : str) :
  c ∈ findall (station_pattern db) row_text ->
  exists run tok, c = run ++ tok /\ run <> [] /\ tok ∈ suffixes.
Proof.
  intros H. apply findall_from_elem in H as [pre [t [rest [_ [Hm ->]]]]].
  apply station_match_sound in Hm as [run [tok [-> [Hne [_ Htok]]]]].
  exists run, tok. rewrite app_assoc, matched_app. auto.
Qed.

(** ** Names free of the exclusion phrases *)

Definition clean_name (name : str) : Prop :=
  str_in FREE_PERIOD name = false /\ str_in BILLED_QTY name = false.

Lemma trim_bay_infix (x : str) :
  no_space_at_end x -> exists a b, x = a ++ trim_bay x ++ b.
Proof.
  intros Hx. unfold trim_bay, re_sub_empty.
  destruct (bay_sub_prefix x Hx) as [k ->].
  destruct (strip_infix (take k x)) as [a [b Hab]].
  exists a, (b ++ drop k x).
  rewrite <- (take_drop k x) at 1. rewrite Hab at 1.
  repeat rewrite <- app_assoc. reflexivity.
Qed.

Lemma add_station_clean (stations : list str) (station : str) :
  Forall clean_name stations -> Forall clean_name (add_station stations station).
Proof.
  intros Hall. unfold add_station.
  destruct (str_in FREE_PERIOD (strip station)) eqn:Hf; [exact Hall|].
  destruct (str_in BILLED_QTY (strip station)) eqn:Hb; [exact Hall|].
  simpl. destruct (trim_bay (strip station)) as [|c name] eqn:Ht; [exact Hall|].
  apply Forall_app. split; [exact Hall|]. constructor; [|constructor].
  destruct (trim_bay_infix (strip station) (strip_no_space_at_end station))
    as [a [b Hab]].
  rewrite Ht in Hab.
  split; eapply str_in_false_infix; eauto.
Qed.

Lemma add_row_clean (db : unicode_db) (stations : list str) (row_text : str) :
  Forall clean_name stations -> Forall clean_name (add_row db stations row_text).
Proof.
  unfold add_row. destruct (is_swap_row db row_text); [|auto].
  generalize (findall (station_pattern db) row_text). intros cands.
  revert stations. induction cands as [|c cands IH]; intros stations H; simpl.
  - exact H.
  - apply IH, add_station_clean, H.
Qed.

Lemma process_pages_clean (db : unicode_db) (doc : list page) (stations : list str) :
  Forall clean_name stations ->
  Forall clean_name (process_pages db doc stations).1.
Proof.
  revert stations. induction doc as [|pg doc IH]; intros stations H; simpl.
  - exact H.
  - destruct (get_text_text pg) as [txt|e]; [|exact H].
    destruct (negb (str_in PAGE_MARKER txt)); [apply IH, H|].
    destruct (get_text_words pg) as [[|w words]|e]; [apply IH, H | | exact H].
    apply IH. generalize (page_rows (w :: words)).*2. intros rows.
    revert stations H. induction rows as [|r rows IHr]; intros stations H; simpl.
    + exact H.
    + apply IHr, add_row_clean, H.
Qed.

(** C4. No station name that the extractor emits contains the phrase
    換電免費時段折抵 or the phrase 計費數量: this holds for the names
    taken from any one row text, and for the list returned for a whole
    document. *)
Theorem emitted_names_exclude_phrases (db : unicode_db) (sys : system)
  (row_text pdf_path : str) :
  Forall (fun name => str_in FREE_PERIOD name = false
                      /\ str_in BILLED_QTY name = false)
         (add_row db [] row_text)
  /\ Forall (fun name => str_in FREE_PERIOD name = false
                         /\ str_in BILLED_QTY name = false)
            (extract_swap_stations_from_pdf db sys pdf_path).1.
Proof.
  split.
  - apply (add_row_clean db [] row_text). constructor.
  - unfold extract_swap_stations_from_pdf.
    destruct (fitz_open sys pdf_path) as [doc|e]; [|constructor].
    pose proof (process_pages_clean db doc [] (Forall_nil_2 _)) as H.
    destruct (process_pages db doc []) as [stations [e|]]; exact H.
Qed.

(** ** The clean-up of a candidate *)

Lemma candidate_not_bay (db : unicode_db) (row_text c : str) :
  c ∈ findall (station_pattern db) row_text ->
  no_space_at_end (strip c) /\ ~ ends_with_bay (strip c).
Proof.
  intros H. apply candidate_shape in H as [run [tok [-> [_ Htok]]]].
  destruct (strip_candidate run tok Htok) as [-> [H1 H2]]. auto.
Qed.

(** C5, as the code has it. The clean-up is [re.sub] with the pattern
    [\s+[A-D]$] and then [strip]. On a text that ends with a run of
    whitespace and one letter A to D, the [re.sub] removes that run and
    that letter, once, whatever stands before them, and the [strip] then
    strips what is left. On any other text with no whitespace at its end
    the [re.sub] removes nothing, a final letter with no whitespace in
    front of it included, and the step gives the stripped text. A
    candidate of the station pattern ends with one of the suffix words,
    so it never ends with whitespace and a letter A to D, and the
    clean-up leaves every stripped candidate as it is. *)
Theorem trim_bay_spec :
  (forall p ws L,
      ws <> [] -> Forall (fun c => isspace c = true) ws -> bay_letter L = true ->
      no_space_at_end p ->
      re_sub_empty bay_pattern (p ++ ws ++ [L]) = p
      /\ trim_bay (p ++ ws ++ [L]) = strip p)
  /\ (forall x,
        no_space_at_end x -> ~ ends_with_bay x ->
        re_sub_empty bay_pattern x = x /\ trim_bay x = strip x)
  /\ (forall db row_text,
        Forall (fun c => ~ ends_with_bay (strip c)
                         /\ re_sub_empty bay_pattern (strip c) = strip c
                         /\ trim_bay (strip c) = strip c)
               (findall (station_pattern db) row_text)).
Proof.
  split; [|split].
  - intros p ws L Hne Hws HL Hp. unfold trim_bay.
    rewrite bay_sub_strips by assumption. split; reflexivity.
  - intros x Hx Hnot. unfold trim_bay. rewrite bay_sub_id by assumption.
    split; reflexivity.
  - intros db row_text. apply Forall_forall. intros c Hc.
    destruct (candidate_not_bay db row_text c Hc) as [H1 H2].
    split; [exact H2|]. unfold trim_bay.
    rewrite bay_sub_id by assumption. split; [reflexivity | apply strip_idem].
Qed.

(** The three parts of [trim_bay_spec] at work: the text x, space, A, space,
    A loses one letter only; 信義站A keeps its letter; the candidate of a
    row that has 信義站 A in it is 信義站. *)
Lemma trim_bay_spec_witness :
  (re_sub_empty bay_pattern (u "x A A") = u "x A"
   /\ trim_bay (u "x A A") = strip (u "x A"))
  /\ (re_sub_empty bay_pattern (u "信義站A") = u "信義站A"
      /\ trim_bay (u "信義站A") = strip (u "信義站A"))
  /\ Forall (fun c => ~ ends_with_bay (strip c)
                      /\ re_sub_empty bay_pattern (strip c) = strip c
                      /\ trim_bay (strip c) = strip c)
            (findall (station_pattern basic_db) (u "信義站 A 12:30:45 1(安時)")).
Proof.
  destruct trim_bay_spec as [Ha [Hb Hc]]. split; [|split].
  - apply (Ha (u "x A") (u " ") 65); try reflexivity.
    + discriminate.
    + repeat constructor.
    + intros pre c H. change (u "x A") with ([120; 32] ++ [65]) in H.
      apply app_inj_tail in H as [_ <-]. reflexivity.
  - apply (Hb (u "信義站A")).
    + intros pre c H. change (u "信義站A") with ([20449; 32681; 31449] ++ [65]) in H.
      apply app_inj_tail in H as [_ <-]. reflexivity.
    + intros [pre [w [L [H [Hw _]]]]].
      change (u "信義站A") with ([20449; 32681] ++ [31449; 65]) in H.
      change (pre ++ [w; L]) with (pre ++ [w] ++ [L]) in H.
      change ([20449; 32681] ++ [31449; 65])
        with ([20449; 32681] ++ [31449] ++ [65]) in H.
      rewrite !app_assoc in H.
      apply app_inj_tail in H as [H _]. apply app_inj_tail in H as [_ <-].
      discriminate Hw.
  - apply Hc.
Defined.

(** C5, as the claim has it, fails in its last part: there is no row
    text with a candidate that ends with whitespace and a letter A to D. *)
Lemma no_candidate_ends_with_bay :
  ~ exists db row_text c,
      c ∈ findall (station_pattern db) row_text /\ ends_with_bay (strip c).
Proof.
  intros [db [row_text [c [Hc Hbay]]]].
  destruct (candidate_not_bay db row_text c Hc) as [_ Hnot]. exact (Hnot Hbay).
Qed.

(** ** The scenario row *)

(** The places of a text where a suffix word stands. *)
Definition suffix_sites (t : str) : list (nat * str) :=
  n ← seq 0 (length t);
  tok ← suffixes;
  if startswith (drop n t) tok then [(n, tok)] else [].

Lemma suffix_sites_complete (t run tok rest : str) :
  tok ∈ suffixes -> t = run ++ tok ++ rest -> (length run, tok) ∈ suffix_sites t.
Proof.
  intros Htok ->. unfold suffix_sites.
  apply list_elem_of_bind. exists (length run). split.
  - apply list_elem_of_bind. exists tok. split; [|exact Htok].
    rewrite drop_app_length.
    replace (startswith (tok ++ rest) tok) with true; [left|].
    symmetry. apply startswith_spec. eauto.
  - apply elem_of_seq. split; [lia|].
    destruct (suffix_ends tok Htok) as [[h [tl [-> _]]] _].
    rewrite !length_app. simpl. lia.
Qed.

(** Where a text has one place only for a suffix word, the match of the
    station pattern at its start ends there. *)
Lemma station_match_at_only_site (db : unicode_db) (run tok rest : str) :
  run <> [] -> Forall (fun c => station_char db c = true) run ->
  tok ∈ suffixes ->
  suffix_sites (run ++ tok ++ rest) = [(length run, tok)] ->
  re_match (station_pattern db) (run ++ tok ++ rest) = Some rest.
Proof.
  intros Hne Hall Htok Hsites.
  destruct (station_match_complete db run tok rest Hne Hall Htok) as [r Hr].
  rewrite Hr. f_equal.
  apply station_match_sound in Hr as [run' [tok' [Heq [_ [_ Htok']]]]].
  pose proof (suffix_sites_complete _ run' tok' r Htok' Heq) as Hin.
  rewrite Hsites in Hin. apply list_elem_of_singleton in Hin.
  injection Hin as Hlen ->.
  rewrite !app_assoc in Heq. apply app_inj_1 in Heq as [_ Heq].
  - congruence.
  - rewrite !length_app. lia.
Qed.

Lemma no_suffix_no_candidate (db : unicode_db) (s : str) (skip : nat) :
  Forall (fun tok => str_in tok s = false) suffixes ->
  findall_from (station_pattern db) s skip = [].
Proof.
  revert skip. induction s as [|a s IH]; intros skip H.
  - destruct skip; [|reflexivity]. simpl.
    destruct (re_match (station_pattern db) []) eqn:E; [|reflexivity].
    apply station_match_sound in E as [run [tok [Heq [Hne _]]]].
    destruct run; [contradiction | discriminate].
  - assert (Forall (fun tok => str_in tok s = false) suffixes) as Htl.
    { eapply Forall_impl; [exact H|]. intros tok Ht. simpl in Ht.
      apply orb_false_iff in Ht as [_ Ht]. exact Ht. }
    destruct skip; cbn [findall_from]; [|apply IH, Htl].
    destruct (re_match (station_pattern db) (a :: s)) eqn:E; [|apply IH, Htl].
    apply station_match_sound in E as [run [tok [Heq [_ [_ Htok]]]]].
    rewrite Forall_forall in H. specialize (H tok Htok).
    assert (str_in tok (a :: s) = true) as Ht
      by (apply str_in_spec; exists run; eauto).
    congruence.
Qed.

Lemma findall_from_skip (r : regex) (pre s : str) :
  findall_from r (pre ++ s) (length pre) = findall_from r s 0.
Proof. induction pre as [|c pre IH]; [reflexivity | exact IH]. Qed.

Definition SCENARIO_ROW : str :=
  Eval vm_compute in u "陽光公所A 12:30:45 0.85(安時)".

(** Literals are decoded once, by the virtual machine. *)
Ltac decode_literals :=
  repeat match goal with
  | |- context [u ?s] =>
    let v := eval vm_compute in (u s) in
    replace (u s) with v by (vm_compute; reflexivity)
  end.

Lemma findall_head (r : regex) (a : N) (s rest : str) :
  re_match r (a :: s) = Some rest ->
  findall r (a :: s) =
  matched (a :: s) rest
    :: findall_from r s (Init.Nat.pred (length (a :: s) - length rest)).
Proof. intros H. unfold findall. cbn [findall_from]. rewrite H. reflexivity. Qed.

Lemma scenario_candidates (db : unicode_db) :
  findall (station_pattern db) SCENARIO_ROW = [u "陽光公所"].
Proof.
  decode_literals.
  pose (run := [38525; 20809]). pose (tok := [20844; 25152]).
  let v := eval vm_compute in (drop 4 SCENARIO_ROW) in pose (rest := v).
  assert (re_match (station_pattern db) (run ++ tok ++ rest) = Some rest) as Hm.
  { apply station_match_at_only_site.
    - discriminate.
    - repeat constructor.
    - unfold suffixes. do 3 apply list_elem_of_further. apply list_elem_of_here.
    - vm_compute. reflexivity. }
  pose proof (findall_head (station_pattern db) 38525
                ([20809] ++ tok ++ rest) rest Hm) as Hf.
  etransitivity; [exact Hf|]. f_equal.
  transitivity (findall_from (station_pattern db) rest 0).
  - exact (findall_from_skip (station_pattern db) [20809; 20844; 25152] rest).
  - apply no_suffix_no_candidate. repeat constructor.
Qed.

(** C6. The row text 陽光公所A 12:30:45 0.85(安時) is accepted by the
    row classifier, and the extractor emits for it one station name,
    陽光公所, given that [\d] matches the ASCII digits. *)
Theorem scenario_row_yields_station (db : unicode_db) :
  (forall c, 48 <= c <= 57 -> isdecimal db c = true) ->
  is_swap_row db (u "陽光公所A 12:30:45 0.85(安時)") = true
  /\ add_row db [] (u "陽光公所A 12:30:45 0.85(安時)") = [u "陽光公所"].
Proof.
  intros Hd.
  replace (u "陽光公所A 12:30:45 0.85(安時)") with SCENARIO_ROW
    by (vm_compute; reflexivity).
  assert (is_swap_row db SCENARIO_ROW = true) as Hrow.
  { apply swap_row_anchors. split.
    - exists [49; 50; 58; 51; 48; 58; 52; 53]. split.
      + exists 49, 50, 51, 48, 52, 53.
        split; [reflexivity|]. unfold digit. repeat split; apply Hd; lia.
      + exists (take 6 SCENARIO_ROW), (drop 14 SCENARIO_ROW).
        vm_compute. reflexivity.
    - apply str_in_spec. vm_compute. reflexivity. }
  split; [exact Hrow|].
  unfold add_row. rewrite Hrow, scenario_candidates.
  vm_compute. reflexivity.
Qed.

Lemma scenario_row_yields_station_witness :
  is_swap_row basic_db (u "陽光公所A 12:30:45 0.85(安時)") = true
  /\ add_row basic_db [] (u "陽光公所A 12:30:45 0.85(安時)") = [u "陽光公所"].
Proof.
  apply (scenario_row_yields_station basic_db).
  intros c Hc. simpl. apply andb_true_iff. rewrite !N.leb_le. lia.
Defined.

(** ** A document that fails *)

(** The exception that the body of the page loop raises on a page, if it
    raises: from [get_text("text")], or from [get_text("words")], which
    is asked only where the text has the page marker. *)
Definition page_raises (pg : page) : option str :=
  match get_text_text pg with
  | Raise e => Some e
  | Ok txt =>
    if negb (str_in PAGE_MARKER txt) then None
    else
      match get_text_words pg with
      | Raise e => Some e
      | Ok _ => None
      end
  end.

(** The first exception of the page loop, and of the whole [try] block. *)
Fixpoint first_error (doc : list page) : option str :=
  match doc with
  | [] => None
  | pg :: doc' =>
    match page_raises pg with
    | Some e => Some e
    | None => first_error doc'
    end
  end.

Definition document_error (sys : system) (pdf_path : str) : option str :=
  match fitz_open sys pdf_path with
  | Raise e => Some e
  | Ok doc => first_error doc
  end.

Lemma process_pages_raise (db : unicode_db) (pg : page) (after : list page)
  (stations : list str) (e : str) :
  page_raises pg = Some e ->
  process_pages db (pg :: after) stations = (stations, Some e).
Proof.
  unfold page_raises. simpl. destruct (get_text_text pg) as [txt|e'].
  - destruct (negb (str_in PAGE_MARKER txt)); [discriminate|].
    destruct (get_text_words pg) as [words|e'']; [discriminate|].
    intros H. injection H as ->. reflexivity.
  - intros H. injection H as ->. reflexivity.
Qed.

Lemma process_pages_app (db : unicode_db) (before doc : list page)
  (stations : list str) :
  Forall (fun p => page_raises p = None) before ->
  process_pages db (before ++ doc) stations =
    process_pages db doc (process_pages db before stations).1
  /\ (process_pages db before stations).2 = None.
Proof.
  intros H. revert stations. induction H as [|pg before Hpg _ IH]; intros stations.
  - split; reflexivity.
  - unfold page_raises in Hpg. simpl.
    destruct (get_text_text pg) as [txt|e]; [|discriminate].
    destruct (negb (str_in PAGE_MARKER txt)); [apply IH|].
    destruct (get_text_words pg) as [[|w words]|e]; [apply IH | apply IH | discriminate].
Qed.

Lemma process_pages_error (db : unicode_db) (doc : list page) (stations : list str) :
  (process_pages db doc stations).2 = first_error doc.
Proof.
  revert stations. induction doc as [|pg doc IH]; intros stations; [reflexivity|].
  simpl. unfold page_raises.
  destruct (get_text_text pg) as [txt|e]; [|reflexivity].
  destruct (negb (str_in PAGE_MARKER txt)); [apply IH|].
  destruct (get_text_words pg) as [[|w words]|e]; [apply IH | apply IH | reflexivity].
Qed.

Lemma failed_document_result (db : unicode_db) (sys : system) (pdf_path : str)
  (before : list page) (pg : page) (after : list page) (e : str) :
  fitz_open sys pdf_path = Ok (before ++ pg :: after) ->
  Forall (fun p => page_raises p = None) before ->
  page_raises pg = Some e ->
  extract_swap_stations_from_pdf db sys pdf_path =
    ((process_pages db before []).1, [error_line pdf_path e]).
Proof.
  intros Hopen Hbefore Hpg. unfold extract_swap_stations_from_pdf.
  rewrite Hopen.
  destruct (process_pages_app db before (pg :: after) [] Hbefore) as [-> _].
  rewrite (process_pages_raise db pg after _ e Hpg). reflexivity.
Qed.

(** A bill of two pages: the first has one swap row, the second cannot
    be read. *)
Definition page_with_swap : page := {|
  get_text_text := Ok (u "電池服務明細表");
  get_text_words := Ok [
    {| word_y0 := 100; word_text := u "信義站" |};
    {| word_y0 := 100; word_text := u "12:30:45" |};
    {| word_y0 := 100; word_text := u "0.85(安時)" |} ]
|}.

Definition page_unreadable : page := {|
  get_text_text := Raise (u "cannot read page");
  get_text_words := Raise (u "cannot read page")
|}.

Definition one_bad_bill : system := {|
  listdir := fun _ => Ok [u "bill.pdf"];
  path_join := fun folder file => folder ++ u "/" ++ file;
  fitz_open := fun _ => Ok [page_with_swap; page_unreadable]
|}.

(** C1, as the code has it. A document that cannot be opened gives an
    empty list. A document whose processing raises on one of its pages
    gives the station names of the pages before that page, the same list
    that those pages alone give, and the error line is printed: what was
    extracted before the error is kept. *)
Theorem failed_document_keeps_earlier_records (db : unicode_db) (sys : system)
  (pdf_path : str) :
  (forall e,
      fitz_open sys pdf_path = Raise e ->
      extract_swap_stations_from_pdf db sys pdf_path =
        ([], [error_line pdf_path e]))
  /\ (forall before pg after e,
        fitz_open sys pdf_path = Ok (before ++ pg :: after) ->
        Forall (fun p => page_raises p = None) before ->
        page_raises pg = Some e ->
        extract_swap_stations_from_pdf db sys pdf_path =
          ((process_pages db before []).1, [error_line pdf_path e])
        /\ (process_pages db before []).2 = None).
Proof.
  split.
  - intros e H. unfold extract_swap_stations_from_pdf. rewrite H. reflexivity.
  - intros before pg after e Hopen Hbefore Hpg. split.
    + apply (failed_document_result db sys pdf_path before pg after e); assumption.
    + apply (process_pages_app db before [] [] Hbefore).
Qed.

Lemma failed_document_keeps_earlier_records_witness :
  extract_swap_stations_from_pdf basic_db one_bad_bill (u "./bill.pdf") =
    ((process_pages basic_db [page_with_swap] []).1,
     [error_line (u "./bill.pdf") (u "cannot read page")])
  /\ (process_pages basic_db [page_with_swap] []).2 = None.
Proof.
  apply (proj2 (failed_document_keeps_earlier_records basic_db one_bad_bill
                  (u "./bill.pdf"))
           [page_with_swap] page_unreadable [] (u "cannot read page")).
  - reflexivity.
  - constructor; [vm_compute; reflexivity | constructor].
  - reflexivity.
Defined.

(** C1, as the claim has it, fails on the bill above: its second page
    raises, and the list returned holds the station of the first page. *)
Lemma failed_document_not_empty :
  document_error one_bad_bill (u "./bill.pdf") = Some (u "cannot read page")
  /\ extract_swap_stations_from_pdf basic_db one_bad_bill (u "./bill.pdf") =
       ([u "信義站"], [error_line (u "./bill.pdf") (u "cannot read page")]).
Proof. split; vm_compute; reflexivity. Qed.

(** ** Aggregation *)

Lemma count_one_total (name : str) (t : series) :
  sum_list_with snd (count_one name t) = S (sum_list_with snd t).
Proof.
  induction t as [|[k n] t IH]; simpl; [reflexivity|].
  destruct (decide (k = name)); simpl; [reflexivity|]. rewrite IH. lia.
Qed.

Lemma count_all_total (names : list str) (t : series) :
  sum_list_with snd (foldl (fun t name => count_one name t) t names) =
  (sum_list_with snd t + length names)%nat.
Proof.
  revert t. induction names as [|name names IH]; intros t; simpl; [lia|].
  rewrite IH, count_one_total. lia.
Qed.

Lemma value_counts_total (names : list str) :
  sum_list_with snd (value_counts names) = length names.
Proof.
  unfold value_counts. rewrite merge_sort_Permutation.
  apply (count_all_total names []).
Qed.

(** C7. The total that the aggregator reports is the sum of the counts of
    its table: for the table of any list of names, and for the pair that
    [analyze_bills_in_folder] returns. *)
Theorem total_is_sum_of_counts :
  (forall names : list str,
      length names = sum_list_with snd (value_counts names))
  /\ (forall db sys folder_path,
        match analyze_bills_in_folder db sys folder_path with
        | Ok ((total_swaps, station_counts), _) =>
          total_swaps = sum_list_with snd station_counts
        | Raise _ => True
        end).
Proof.
  split.
  - intros names. symmetry. apply value_counts_total.
  - intros db sys folder_path. unfold analyze_bills_in_folder.
    destruct (listdir sys folder_path) as [names|e]; [|exact I].
    destruct (filter _ names) as [|f files]; [reflexivity|].
    destruct (foldl _ _ (f :: files)) as [[|name all_swaps] out].
    + reflexivity.
    + symmetry. apply value_counts_total.
Qed.

(** ** A run over a folder *)

(** What one file gives: [extract_swap_stations_from_pdf] on its path. *)
Definition file_result (db : unicode_db) (sys : system) (folder_path pdf_file : str)
  : list str * list str :=
  extract_swap_stations_from_pdf db sys (path_join sys folder_path pdf_file).

Lemma process_files (db : unicode_db) (sys : system) (folder_path : str)
  (pdf_files : list str) (all_swaps out : list str) :
  exists out',
    foldl (process_file db sys folder_path) (all_swaps, out) pdf_files =
      (all_swaps
         ++ concat ((fun f => (file_result db sys folder_path f).1) <$> pdf_files),
       out')
    /\ (forall line, line ∈ out -> line ∈ out')
    /\ (forall f line,
          f ∈ pdf_files -> line ∈ (file_result db sys folder_path f).2 ->
          line ∈ out').
Proof.
  revert all_swaps out.
  induction pdf_files as [|f files IH]; intros all_swaps out.
  - exists out. simpl. rewrite app_nil_r. repeat split; [auto|].
    intros f line Hf. inversion Hf.
  - cbn [foldl]. unfold process_file at 2. fold (file_result db sys folder_path f).
    destruct (file_result db sys folder_path f) as [swaps printed] eqn:Hres.
    destruct (IH (all_swaps ++ swaps)
                 ((out ++ [u "  - 正在處理: " ++ f]) ++ printed))
      as [out' [Heq [Hout Hfiles]]].
    exists out'. repeat split.
    + rewrite Heq. simpl. rewrite Hres. simpl. rewrite app_assoc. reflexivity.
    + intros line Hl. apply Hout. rewrite !elem_of_app. auto.
    + intros f' line Hf' Hl. apply elem_of_cons in Hf' as [->|Hf'].
      * apply Hout. rewrite Hres in Hl. rewrite !elem_of_app. auto.
      * eapply Hfiles; eassumption.
Qed.

Lemma error_line_names_file (pdf_path e : str) :
  substring pdf_path (error_line pdf_path e).
Proof.
  unfold error_line, substring.
  exists (u "處理檔案 '"), (u "' 時發生錯誤: " ++ e). reflexivity.
Qed.

Lemma failed_file_prints (db : unicode_db) (sys : system) (pdf_path e : str) :
  document_error sys pdf_path = Some e ->
  (extract_swap_stations_from_pdf db sys pdf_path).2 = [error_line pdf_path e].
Proof.
  unfold document_error, extract_swap_stations_from_pdf.
  destruct (fitz_open sys pdf_path) as [doc|e'].
  - intros H. pose proof (process_pages_error db doc []) as Hp.
    destruct (process_pages db doc []) as [stations [e'|]]; simpl in Hp;
      rewrite H in Hp; [injection Hp as -> | discriminate Hp]. reflexivity.
  - intros H. injection H as ->. reflexivity.
Qed.

(** C8, as the code has it. When the folder can be listed, the run
    returns: the names counted are those that each PDF file of the folder
    gives by itself, one file after the other, so an error in one file
    takes nothing from the files after it; and for each file that fails,
    the error line with the path of that file is printed. A file that
    fails is counted with what it gave before its error. *)
Theorem run_continues_after_failure (db : unicode_db) (sys : system)
  (folder_path : str) (names : list str) :
  listdir sys folder_path = Ok names ->
  let pdf_files := filter (fun f => is_pdf db f = true) names in
  let all_swaps :=
    concat ((fun f => (file_result db sys folder_path f).1) <$> pdf_files) in
  exists out,
    analyze_bills_in_folder db sys folder_path =
      Ok ((length all_swaps,
           match all_swaps with [] => [] | _ :: _ => value_counts all_swaps end),
          out)
    /\ (forall f e,
          f ∈ pdf_files ->
          document_error sys (path_join sys folder_path f) = Some e ->
          error_line (path_join sys folder_path f) e ∈ out
          /\ substring (path_join sys folder_path f)
                       (error_line (path_join sys folder_path f) e)).
Proof.
  intros Hls. cbv zeta. unfold analyze_bills_in_folder. rewrite Hls.
  generalize (filter (fun f => is_pdf db f = true) names). intros pdf_files.
  destruct (process_files db sys folder_path pdf_files []
              [u "找到 " ++ str_of_nat (length pdf_files)
                 ++ u " 個 PDF 檔案，開始分析..."])
    as [out' [Heq [_ Hprinted]]].
  assert (forall out : list str,
            (forall line : str, line ∈ out' -> line ∈ out) ->
            forall f e, f ∈ pdf_files ->
              document_error sys (path_join sys folder_path f) = Some e ->
              error_line (path_join sys folder_path f) e ∈ out
              /\ substring (path_join sys folder_path f)
                           (error_line (path_join sys folder_path f) e)) as Herr.
  { intros out Hout f e Hf He. split; [|apply error_line_names_file].
    apply Hout, (Hprinted f _ Hf). unfold file_result.
    rewrite (failed_file_prints db sys _ e He). left. }
  destruct pdf_files as [|f0 files].
  - eexists. split; [reflexivity|]. intros f e Hf. inversion Hf.
  - rewrite Heq. cbn [app].
    destruct (concat _) as [|name rest]; eexists; (split; [reflexivity|]);
      apply Herr; intros line Hl; rewrite !elem_of_app; auto.
Qed.

(** A folder of two bills: the first fails on its second page, the
    second is read to its end and has one swap row of another station. *)
Definition page_with_other_swap : page := {|
  get_text_text := Ok (u "電池服務明細表");
  get_text_words := Ok [
    {| word_y0 := 100; word_text := u "忠孝店" |};
    {| word_y0 := 100; word_text := u "08:15:00" |};
    {| word_y0 := 100; word_text := u "1.20(安時)" |} ]
|}.

Definition bad_then_good : system := {|
  listdir := fun _ => Ok [u "bad.pdf"; u "good.pdf"];
  path_join := fun folder file => folder ++ u "/" ++ file;
  fitz_open := fun pdf_path =>
    if decide (pdf_path = u "./bad.pdf")
    then Ok [page_with_swap; page_unreadable]
    else Ok [page_with_other_swap]
|}.

(** In that folder the second bill is still counted after the first has
    failed, and the error line of the first is printed. *)
Lemma run_continues_after_failure_witness :
  document_error bad_then_good (u "./bad.pdf") = Some (u "cannot read page")
  /\ document_error bad_then_good (u "./good.pdf") = None
  /\ exists out,
       analyze_bills_in_folder basic_db bad_then_good (u ".") =
         Ok ((2%nat, [(u "信義站", 1%nat); (u "忠孝店", 1%nat)]), out)
       /\ error_line (u "./bad.pdf") (u "cannot read page") ∈ out
       /\ substring (u "./bad.pdf")
                    (error_line (u "./bad.pdf") (u "cannot read page")).
Proof.
  split; [vm_compute; reflexivity|]. split; [vm_compute; reflexivity|].
  destruct (run_continues_after_failure basic_db bad_then_good (u ".")
              [u "bad.pdf"; u "good.pdf"] eq_refl) as [out [Heq Herr]].
  exists out. split.
  - rewrite Heq. apply (f_equal (fun counted => Ok (counted, out))).
    vm_compute. reflexivity.
  - assert (path_join bad_then_good (u ".") (u "bad.pdf") = u "./bad.pdf") as Hpath
      by (vm_compute; reflexivity).
    rewrite <- Hpath. apply Herr.
    + replace (filter (fun f => is_pdf basic_db f = true)
                 [u "bad.pdf"; u "good.pdf"])
        with [u "bad.pdf"; u "good.pdf"] by (vm_compute; reflexivity).
      apply list_elem_of_here.
    + vm_compute. reflexivity.
Defined.

(** C8, as the claim has it, fails in the part that the failing document
    is skipped: in a folder whose only bill fails on its second page, the
    run still counts the station of the first page. *)
Lemma failed_document_is_counted :
  document_error one_bad_bill (path_join one_bad_bill (u ".") (u "bill.pdf"))
    = Some (u "cannot read page")
  /\ match analyze_bills_in_folder basic_db one_bad_bill (u ".") with
     | Ok (counted, _) => Some counted
     | Raise _ => None
     end = Some (1%nat, [(u "信義站", 1%nat)]).
Proof. split; vm_compute; reflexivity. Qed.

(** ** Charting *)


(** C9. With an empty table the charting stage prints the line
    沒有資料可供繪圖。 and makes no other call: no figure is drawn and
    no file is saved. *)
Theorem empty_table_no_chart (be : backend) (output_filename : str)
  (tr : list call) :
  plot_and_save_analysis be [] output_filename tr =
    (tr ++ [Print (u "沒有資料可供繪圖。")], Ok tt).
Proof. reflexivity. Qed.


Lemma no_frequent_station (station_counts : series) :
  Forall (fun p => p.2 = 1%nat) station_counts ->
  filter (fun p => (1 < p.2)%nat) station_counts = [].
Proof.
  induction 1 as [|p l Hp _ IH]; [reflexivity|].
  rewrite filter_cons, IH. destruct (decide (1 < p.2)%nat); [lia | reflexivity].
Qed.


(** A computation only adds calls to those made before it;
    [begins_with c m] says that the first call it adds is [c]. *)
Definition extends {A} (m : plt A) : Prop :=
  forall tr, exists tr', (m tr).1 = tr ++ tr'.

Definition begins_with {A} (c : call) (m : plt A) : Prop :=
  forall tr, exists tr', (m tr).1 = tr ++ c :: tr'.

Lemma extends_ret {A} (a : A) : extends (ret a).
Proof. intros tr. exists []. simpl. rewrite app_nil_r. reflexivity. Qed.

Lemma extends_say (line : str) : extends (say line).
Proof. intros tr. exists [Print line]. reflexivity. Qed.

Lemma extends_lib (be : backend) (c : call) : extends (lib be c).
Proof. intros tr. exists [c]. unfold lib. destruct (raises be c); reflexivity. Qed.

Lemma extends_bind {A B} (m : plt A) (f : A -> plt B) :
  extends m -> (forall a, extends (f a)) -> extends (bind m f).
Proof.
  intros Hm Hf tr. unfold bind. destruct (Hm tr) as [t1 H1].
  destruct (m tr) as [tr1 [a|e]]; simpl in H1; subst tr1.
  - destruct (Hf a (tr ++ t1)) as [t2 H2]. exists (t1 ++ t2).
    rewrite H2, app_assoc. reflexivity.
  - exists t1. reflexivity.
Qed.

Lemma extends_try {A} (m h : plt A) :
  extends m -> extends h -> extends (try_except m h).
Proof.
  intros Hm Hh tr. unfold try_except. destruct (Hm tr) as [t1 H1].
  destruct (m tr) as [tr1 [a|e]]; simpl in H1; subst tr1.
  - exists t1. reflexivity.
  - destruct (Hh (tr ++ t1)) as [t2 H2]. exists (t1 ++ t2).
    rewrite H2, app_assoc. reflexivity.
Qed.

Lemma extends_for_each {A} (l : list A) (body : A -> plt unit) :
  (forall a, extends (body a)) -> extends (for_each l body).
Proof.
  intros Hb. induction l as [|a l IH]; simpl.
  - apply extends_ret.
  - apply extends_bind; [apply Hb | intros _; exact IH].
Qed.

Lemma begins_lib (be : backend) (c : call) : begins_with c (lib be c).
Proof. intros tr. exists []. unfold lib. destruct (raises be c); reflexivity. Qed.

Lemma begins_bind {A B} (c : call) (m : plt A) (f : A -> plt B) :
  begins_with c m -> (forall a, extends (f a)) -> begins_with c (bind m f).
Proof.
  intros Hm Hf tr. unfold bind. destruct (Hm tr) as [t1 H1].
  destruct (m tr) as [tr1 [a|e]]; simpl in H1; subst tr1.
  - destruct (Hf a (tr ++ c :: t1)) as [t2 H2]. exists (t1 ++ t2).
    rewrite H2, <- app_assoc. reflexivity.
  - exists t1. reflexivity.
Qed.

Lemma begins_try {A} (c : call) (m h : plt A) :
  begins_with c m -> extends h -> begins_with c (try_except m h).
Proof.
  intros Hm Hh tr. unfold try_except. destruct (Hm tr) as [t1 H1].
  destruct (m tr) as [tr1 [a|e]]; simpl in H1; subst tr1.
  - exists t1. reflexivity.
  - destruct (Hh (tr ++ c :: t1)) as [t2 H2]. exists (t1 ++ t2).
    rewrite H2, <- app_assoc. reflexivity.
Qed.

Ltac solve_extends :=
  repeat first
    [ apply extends_say | apply extends_lib | apply extends_ret
    | apply extends_try
    | apply extends_for_each; intros ?
    | apply extends_bind; [|intros ?] ].

(** Past the guard, the first call is the font setting, whatever the
    libraries do afterwards. *)
Lemma chart_begins (be : backend) (p : str * nat) (rest : series)
  (output_filename : str) :
  begins_with (SetFontSansSerif [u "Microsoft JhengHei"])
    (plot_and_save_analysis be (p :: rest) output_filename).
Proof.
  unfold plot_and_save_analysis.
  apply begins_bind; [|intros ?; solve_extends].
  apply begins_try; [|solve_extends].
  apply begins_bind; [apply begins_lib | intros ?; solve_extends].
Qed.



(** C10. For a table that is not empty and whose counts are all 1 the
    set of stations to plot is empty, and the charting stage does not
    take its skip branch: its first call is the font setting. Where the
    bar chart of the empty series raises, as that of pandas does, the
    stage ends with an exception and the call that saves the file is not
    made: no file is written. *)
Theorem singleton_counts_plot_fails (be : backend) (station_counts : series)
  (output_filename : str) (e : str) :
  station_counts <> [] ->
  Forall (fun p => p.2 = 1%nat) station_counts ->
  raises be (PlotBarh []) = Some e ->
  filter (fun p => (1 < p.2)%nat) station_counts = []
  /\ exists tr e',
       plot_and_save_analysis be station_counts output_filename [] =
         (SetFontSansSerif [u "Microsoft JhengHei"] :: tr, Raise e')
       /\ forall f, SaveFig f ∉ SetFontSansSerif [u "Microsoft JhengHei"] :: tr.
Proof.
  intros Hne Hones Hplot. pose proof (no_frequent_station _ Hones) as Hnone.
  destruct station_counts as [|p rest]; [contradiction|].
  split; [exact Hnone|].
  unfold plot_and_save_analysis. rewrite Hnone.
  change (sort_values []) with ([] : series).
  unfold bind, try_except, lib, say. rewrite Hplot. cbn [app].
  repeat match goal with
         | |- context [raises be ?c] =>
           let E := fresh "E" in destruct (raises be c) eqn:E; cbn [app]
         end;
    (eexists _, _; split; [reflexivity|]);
    intros f Hin;
    repeat (apply elem_of_cons in Hin as [Hin|Hin]; [discriminate Hin|]);
    inversion Hin.
Qed.

(** A quiet backend whose bar chart has one bar of width [n] for each
    count [n]. *)
Definition quiet_backend : backend := {|
  raises := fun _ => None;
  patches := fun s =>
    (fun p => {| get_width := inject_Z (Z.of_nat p.2); get_y := 0;
                 get_height := 0.5 |}) <$> s
|}.

(** A backend like pandas on an empty series: its bar chart of no data
    raises, and nothing else does. *)
Definition empty_plot_raises : backend := {|
  raises := fun c =>
    match c with
    | PlotBarh [] =>
      Some (u "index 0 is out of bounds for axis 0 with size 0")
    | _ => None
    end;
  patches := patches quiet_backend
|}.

Lemma singleton_counts_plot_fails_witness :
  filter (fun p => (1 < p.2)%nat) [(u "信義站", 1%nat); (u "忠孝店", 1%nat)] = []
  /\ exists tr e',
       plot_and_save_analysis empty_plot_raises
         [(u "信義站", 1%nat); (u "忠孝店", 1%nat)] default_output_filename [] =
         (SetFontSansSerif [u "Microsoft JhengHei"] :: tr, Raise e')
       /\ forall f, SaveFig f ∉ SetFontSansSerif [u "Microsoft JhengHei"] :: tr.
Proof.
  apply (singleton_counts_plot_fails empty_plot_raises
           [(u "信義站", 1%nat); (u "忠孝店", 1%nat)] default_output_filename
           (u "index 0 is out of bounds for axis 0 with size 0")).
  - discriminate.
  - repeat constructor.
  - reflexivity.
Defined.

(** * Further properties of the extractor *)

(** The test of the loop over [found_stations]: neither phrase stands in
    the stripped candidate. *)
Definition kept (station : str) : bool :=
  negb (str_in FREE_PERIOD (strip station))
  && negb (str_in BILLED_QTY (strip station)).

Lemma candidate_stripped (db : unicode_db) (row_text c : str) :
  c ∈ findall (station_pattern db) row_text ->
  trim_bay (strip c) = strip c
  /\ exists pre tok, tok ∈ suffixes /\ strip c = pre ++ tok.
Proof.
  intros Hc. destruct (candidate_not_bay db row_text c Hc) as [H1 H2].
  split.
  - unfold trim_bay. rewrite bay_sub_id by assumption. apply strip_idem.
  - apply candidate_shape in Hc as [run [tok [-> [_ Htok]]]].
    destruct (strip_candidate run tok Htok) as [-> _]. eauto.
Qed.

Lemma suffix_not_empty (pre tok : str) : tok ∈ suffixes -> pre ++ tok <> [].
Proof.
  intros Htok H. destruct (suffix_ends tok Htok) as [[h [tl [-> _]]] _].
  destruct pre; discriminate H.
Qed.

Lemma add_candidates (db : unicode_db) (row_text : str) (cands stations : list str) :
  Forall (fun c => c ∈ findall (station_pattern db) row_text) cands ->
  foldl add_station stations cands =
    stations ++ (strip <$> filter (fun c => kept c = true) cands).
Proof.
  intros H. revert stations.
  induction H as [|c cands Hc _ IH]; intros stations; simpl.
  - rewrite app_nil_r. reflexivity.
  - rewrite IH, filter_cons. unfold add_station. fold (kept c).
    destruct (candidate_stripped db row_text c Hc) as [Ht [pre [tok [Htok Hs]]]].
    destruct (decide (kept c = true)) as [Hk|Hk].
    + rewrite Hk, Ht.
      destruct (strip c) as [|x name] eqn:E.
      * exfalso. symmetry in Hs. exact (suffix_not_empty pre tok Htok Hs).
      * rewrite <- app_assoc, fmap_cons, E. reflexivity.
    + apply not_true_is_false in Hk. rewrite Hk. reflexivity.
Qed.

Lemma add_row_appends (db : unicode_db) (stations : list str) (row_text : str) :
  add_row db stations row_text =
    stations ++
    (if is_swap_row db row_text
     then strip <$> filter (fun c => kept c = true)
                      (findall (station_pattern db) row_text)
     else []).
Proof.
  unfold add_row. destruct (is_swap_row db row_text).
  - apply (add_candidates db row_text). apply Forall_forall. auto.
  - rewrite app_nil_r. reflexivity.
Qed.

(** X1. For a row that the classifier accepts, the names appended are
    the stripped candidates of the station pattern that hold neither
    exclusion phrase, in the order of the matches; for any other row
    nothing is appended. The letter clean-up and the emptiness test
    change nothing. *)
Theorem add_row_is_filter_of_candidates (db : unicode_db) (stations : list str)
  (row_text : str) :
  add_row db stations row_text =
    stations ++
    (if is_swap_row db row_text
     then strip <$> filter
            (fun c => negb (str_in FREE_PERIOD (strip c))
                      && negb (str_in BILLED_QTY (strip c)) = true)
            (findall (station_pattern db) row_text)
     else []).
Proof. apply add_row_appends. Qed.

(** The shape of a station name: it ends with one of the suffix words
    (so it is not empty) and stripping leaves it as it is. *)
Definition station_shaped (name : str) : Prop :=
  (exists pre tok, tok ∈ suffixes /\ name = pre ++ tok)
  /\ name <> [] /\ strip name = name.

Lemma add_row_shaped (db : unicode_db) (stations : list str) (row_text : str) :
  Forall station_shaped stations ->
  Forall station_shaped (add_row db stations row_text).
Proof.
  intros H. rewrite add_row_appends. apply Forall_app. split; [exact H|].
  destruct (is_swap_row db row_text); [|constructor].
  apply Forall_forall. intros name Hn.
  apply list_elem_of_fmap in Hn as [c [-> Hc]].
  apply list_elem_of_filter in Hc as [_ Hc].
  destruct (candidate_stripped db row_text c Hc) as [_ [pre [tok [Htok Hs]]]].
  repeat split.
  - eauto.
  - rewrite Hs. apply suffix_not_empty. exact Htok.
  - apply strip_idem.
Qed.

Lemma process_pages_invariant (db : unicode_db) (P : str -> Prop)
  (doc : list page) (stations : list str) :
  (forall st row_text, Forall P st -> Forall P (add_row db st row_text)) ->
  Forall P stations -> Forall P (process_pages db doc stations).1.
Proof.
  intros Hrow. revert stations.
  induction doc as [|pg doc IH]; intros stations H; simpl.
  - exact H.
  - destruct (get_text_text pg) as [txt|e]; [|exact H].
    destruct (negb (str_in PAGE_MARKER txt)); [apply IH, H|].
    destruct (get_text_words pg) as [[|w words]|e]; [apply IH, H | | exact H].
    apply IH. generalize (page_rows (w :: words)).*2. intros rows.
    revert stations H. induction rows as [|r rows IHr]; intros stations H; simpl.
    + exact H.
    + apply IHr, Hrow, H.
Qed.

(** X2. Every station name in the list returned for a document ends with
    one of the words 站, 店, 門市, 公所, 中心, 停車場, is not empty, and
    has no whitespace at either end. *)
Theorem returned_names_are_station_shaped (db : unicode_db) (sys : system)
  (pdf_path : str) :
  Forall (fun name =>
            (exists pre tok, tok ∈ suffixes /\ name = pre ++ tok)
            /\ name <> [] /\ strip name = name)
         (extract_swap_stations_from_pdf db sys pdf_path).1.
Proof.
  unfold extract_swap_stations_from_pdf.
  destruct (fitz_open sys pdf_path) as [doc|e]; [|constructor].
  pose proof (process_pages_invariant db station_shaped doc []
                (add_row_shaped db) (Forall_nil_2 _)) as H.
  destruct (process_pages db doc []) as [stations [e|]]; exact H.
Qed.

Lemma matched_substring (pre t rest : str) :
  (exists x, t = x ++ rest) -> substring (matched t rest) (pre ++ t).
Proof.
  intros [x ->]. rewrite matched_app. exists pre, rest. reflexivity.
Qed.

Lemma candidate_substring (db : unicode_db) (row_text c : str) :
  c ∈ findall (station_pattern db) row_text -> substring c row_text.
Proof.
  intros H. apply findall_from_elem in H as [pre [t [rest [-> [Hm ->]]]]].
  apply matched_substring.
  apply station_match_sound in Hm as [run [tok [-> _]]].
  exists (run ++ tok). rewrite <- app_assoc. reflexivity.
Qed.

(** X3. Every name taken from a row text is a piece of that text: the
    characters of the name stand in the row text, side by side and in
    the same order. *)
Theorem row_names_are_substrings (db : unicode_db) (row_text : str) :
  Forall (fun name => substring name row_text) (add_row db [] row_text).
Proof.
  rewrite add_row_appends. simpl.
  destruct (is_swap_row db row_text); [|constructor].
  apply Forall_forall. intros name Hn.
  apply list_elem_of_fmap in Hn as [c [-> Hc]].
  apply list_elem_of_filter in Hc as [_ Hc].
  apply candidate_substring in Hc as [a [b ->]].
  destruct (strip_infix c) as [a' [b' Hc]].
  exists (a ++ a'), (b' ++ b). rewrite Hc at 1.
  rewrite <- !app_assoc. reflexivity.
Qed.

(** * Further properties of the page loop *)

(** A page that the loop does not pass over at its first test: its text
    has the page marker, or its text cannot be read. *)
Definition has_page_marker (pg : page) : bool :=
  match get_text_text pg with
  | Ok txt => str_in PAGE_MARKER txt
  | Raise _ => true
  end.

(** X4. Pages whose text lacks the marker 電池服務明細表 count for
    nothing: the loop gives the same list and the same exception as on
    the document without them, and the words of such a page are not
    asked for, so an error in them is not met. *)
Theorem unmarked_pages_are_skipped (db : unicode_db) (doc : list page)
  (stations : list str) :
  process_pages db doc stations =
  process_pages db (filter (fun pg => has_page_marker pg = true) doc) stations.
Proof.
  revert stations. induction doc as [|pg doc IH]; intros stations; [reflexivity|].
  rewrite filter_cons.
  destruct (decide (has_page_marker pg = true)) as [Hm|Hm];
    unfold has_page_marker in Hm; simpl;
    destruct (get_text_text pg) as [txt|e]; try reflexivity.
  - rewrite Hm. simpl.
    destruct (get_text_words pg) as [[|w words]|e]; [apply IH | apply IH | reflexivity].
  - apply not_true_is_false in Hm. rewrite Hm. simpl. apply IH.
  - contradiction.
Qed.

Lemma add_rows_appends (db : unicode_db) (rows stations : list str) :
  foldl (add_row db) stations rows = stations ++ foldl (add_row db) [] rows.
Proof.
  revert stations. induction rows as [|r rows IH]; intros stations; simpl.
  - rewrite app_nil_r. reflexivity.
  - rewrite IH, (IH (add_row db [] r)), (add_row_appends db stations).
    rewrite (add_row_appends db []), <- app_assoc. reflexivity.
Qed.

Lemma process_pages_appends (db : unicode_db) (doc : list page)
  (stations : list str) :
  process_pages db doc stations =
    (stations ++ (process_pages db doc []).1, (process_pages db doc []).2).
Proof.
  revert stations. induction doc as [|pg doc IH]; intros stations; simpl.
  - rewrite app_nil_r. reflexivity.
  - destruct (get_text_text pg) as [txt|e];
      [|simpl; rewrite app_nil_r; reflexivity].
    destruct (negb (str_in PAGE_MARKER txt)); [apply IH|].
    destruct (get_text_words pg) as [[|w words]|e];
      [apply IH | | simpl; rewrite app_nil_r; reflexivity].
    rewrite IH, (IH (foldl _ [] _)), add_rows_appends. simpl.
    rewrite <- app_assoc. reflexivity.
Qed.

(** X5. The page loop only appends: the names it had when it reached a
    page stay, in their order, in front of what the rest of the document
    adds, and what the rest adds does not depend on them. So the list of
    a document with no error is the lists of its parts, one after the
    other. *)
Theorem page_loop_only_appends (db : unicode_db) (doc1 doc2 : list page)
  (stations : list str) :
  process_pages db doc2 stations =
    (stations ++ (process_pages db doc2 []).1, (process_pages db doc2 []).2)
  /\ (first_error doc1 = None ->
      (process_pages db (doc1 ++ doc2) []).1 =
        (process_pages db doc1 []).1 ++ (process_pages db doc2 []).1).
Proof.
  split; [apply process_pages_appends|].
  intros Hok.
  assert (Forall (fun p => page_raises p = None) doc1) as Hall.
  { induction doc1 as [|pg doc1 IH]; [constructor|]. simpl in Hok.
    destruct (page_raises pg) eqn:E; [discriminate|].
    constructor; [exact E | apply IH, Hok]. }
  destruct (process_pages_app db doc1 doc2 [] Hall) as [-> _].
  rewrite process_pages_appends. reflexivity.
Qed.

Lemma page_loop_only_appends_witness :
  (process_pages basic_db ([page_with_swap] ++ [page_with_swap]) []).1 =
    (process_pages basic_db [page_with_swap] []).1
    ++ (process_pages basic_db [page_with_swap] []).1.
Proof.
  apply (proj2 (page_loop_only_appends basic_db [page_with_swap]
                  [page_with_swap] [])).
  vm_compute. reflexivity.
Defined.

(** X6. The except branch prints one line for a document that fails,
    the line with the path and the text of the first exception, and
    nothing is printed for a document that does not fail. *)
Theorem error_line_iff_failure (db : unicode_db) (sys : system) (pdf_path : str) :
  (extract_swap_stations_from_pdf db sys pdf_path).2 =
    match document_error sys pdf_path with
    | Some e => [error_line pdf_path e]
    | None => []
    end.
Proof.
  destruct (document_error sys pdf_path) as [e|] eqn:He.
  - apply failed_file_prints. exact He.
  - unfold document_error in He. unfold extract_swap_stations_from_pdf.
    destruct (fitz_open sys pdf_path) as [doc|e]; [|discriminate].
    pose proof (process_pages_error db doc []) as Hp. rewrite He in Hp.
    destruct (process_pages db doc []) as [stations [e|]]; simpl in Hp;
      [discriminate | reflexivity].
Qed.

(** * Further properties of the run over a folder *)

Lemma endswith_spec (s p : str) : endswith s p = true <-> exists pre, s = pre ++ p.
Proof.
  unfold endswith. rewrite startswith_spec. split.
  - intros [t Ht]. exists (rev t).
    apply (f_equal (@rev N)) in Ht.
    rewrite rev_involutive, rev_app_distr, rev_involutive in Ht. exact Ht.
  - intros [pre ->]. exists (rev pre). apply rev_app_distr.
Qed.

(** [str.lower] on ASCII: the capital letters move, the rest stays. *)
Definition ascii_lower (c : N) : N :=
  if (65 <=? c) && (c <=? 90) then c + 32 else c.

Lemma ascii_lower_inv (c d : N) :
  ascii_lower c = d -> c = d \/ (65 <= c <= 90 /\ d = c + 32).
Proof.
  unfold ascii_lower. destruct ((65 <=? c) && (c <=? 90)) eqn:E; [|auto].
  apply andb_true_iff in E as [H1 H2]. apply N.leb_le in H1, H2. intros <-. auto.
Qed.

(** X7. The test of a file name looks at the lowered name: where
    [str.lower] lowers an ASCII name letter by letter, such a name is
    taken exactly when it ends with a dot and the letters p, d, f, each
    one in either case. *)
Theorem is_pdf_any_case (db : unicode_db) (f : str) :
  (forall s, Forall (fun c => c < 128) s -> lower db s = ascii_lower <$> s) ->
  Forall (fun c => c < 128) f ->
  (is_pdf db f = true <->
   exists stem p d e,
     f = stem ++ [46; p; d; e]
     /\ (p = 112 \/ p = 80) /\ (d = 100 \/ d = 68) /\ (e = 102 \/ e = 70)).
Proof.
  intros Hlower Hf. unfold is_pdf. rewrite (Hlower f Hf), endswith_spec.
  replace (u ".pdf") with [46; 112; 100; 102] by (vm_compute; reflexivity).
  split.
  - intros [pre H].
    assert (exists stem x p d e, f = stem ++ [x; p; d; e]) as [stem [x [p [d [e ->]]]]].
    { apply (f_equal length) in H. rewrite length_fmap, length_app in H. simpl in H.
      destruct f as [|e f _] using rev_ind; [simpl in H; lia|].
      destruct f as [|d f _] using rev_ind; [simpl in H; lia|].
      destruct f as [|p f _] using rev_ind; [simpl in H; lia|].
      destruct f as [|x f _] using rev_ind; [simpl in H; lia|].
      exists f, x, p, d, e. rewrite <- !app_assoc. reflexivity. }
    rewrite fmap_app in H. apply app_inj_2 in H as [_ H]; [|reflexivity].
    simpl in H. injection H as Hx Hp Hd He.
    apply ascii_lower_inv in Hx, Hp, Hd, He.
    exists stem, p, d, e. repeat split; [f_equal; f_equal; lia | lia..].
  - intros [stem [p [d [e [-> [Hp [Hd He]]]]]]].
    exists (ascii_lower <$> stem). rewrite fmap_app. f_equal. simpl.
    destruct Hp as [-> | ->], Hd as [-> | ->], He as [-> | ->]; reflexivity.
Qed.

Lemma is_pdf_any_case_witness :
  is_pdf basic_db (u "bill.PDF") = true <->
  exists stem p d e,
    u "bill.PDF" = stem ++ [46; p; d; e]
    /\ (p = 112 \/ p = 80) /\ (d = 100 \/ d = 68) /\ (e = 102 \/ e = 70).
Proof.
  apply (is_pdf_any_case basic_db (u "bill.PDF")).
  - intros s _. reflexivity.
  - replace (u "bill.PDF") with [98; 105; 108; 108; 46; 80; 68; 70]
      by (vm_compute; reflexivity).
    repeat constructor.
Defined.

(** The lines that the loop over the files prints for one file. *)
Definition file_lines (db : unicode_db) (sys : system) (folder_path pdf_file : str)
  : list str :=
  (u "  - 正在處理: " ++ pdf_file) :: (file_result db sys folder_path pdf_file).2.

Lemma process_files_exact (db : unicode_db) (sys : system) (folder_path : str)
  (pdf_files : list str) (all_swaps out : list str) :
  foldl (process_file db sys folder_path) (all_swaps, out) pdf_files =
    (all_swaps
       ++ concat ((fun f => (file_result db sys folder_path f).1) <$> pdf_files),
     out ++ concat (file_lines db sys folder_path <$> pdf_files)).
Proof.
  revert all_swaps out.
  induction pdf_files as [|f files IH]; intros all_swaps out.
  - simpl. rewrite !app_nil_r. reflexivity.
  - cbn [foldl]. unfold process_file at 2. fold (file_result db sys folder_path f).
    destruct (file_result db sys folder_path f) as [swaps printed] eqn:Hres.
    rewrite IH, !fmap_cons. cbn [concat]. unfold file_lines.
    rewrite Hres. cbn [fst snd]. rewrite <- !app_assoc. reflexivity.
Qed.

(** X8. What a run prints, when the folder can be listed. With no PDF
    file: the one line that none was found. Otherwise: the line with the
    number of PDF files, then for each file in the order of the listing
    its own line followed by its error line if it failed, then the line
    that the analysis is done, and the warning when no name was found. *)
Theorem printed_lines_of_a_run (db : unicode_db) (sys : system)
  (folder_path : str) (names : list str) :
  listdir sys folder_path = Ok names ->
  let pdf_files := filter (fun f => is_pdf db f = true) names in
  let all_swaps :=
    concat ((fun f => (file_result db sys folder_path f).1) <$> pdf_files) in
  exists counted,
    analyze_bills_in_folder db sys folder_path =
      Ok (counted,
          match pdf_files with
          | [] => [u "錯誤：在指定資料夾中找不到任何 PDF 檔案。"]
          | _ :: _ =>
            [u "找到 " ++ str_of_nat (length pdf_files) ++ u " 個 PDF 檔案，開始分析..."]
            ++ concat (file_lines db sys folder_path <$> pdf_files)
            ++ [u "分析完成！"]
            ++ match all_swaps with
               | [] => [u "警告：未能在 PDF 檔案中提取到任何換電紀錄。"]
               | _ :: _ => []
               end
          end).
Proof.
  intros Hls. cbv zeta. unfold analyze_bills_in_folder. rewrite Hls.
  generalize (filter (fun f => is_pdf db f = true) names). intros pdf_files.
  pose proof (process_files_exact db sys folder_path pdf_files []
                [u "找到 " ++ str_of_nat (length pdf_files)
                   ++ u " 個 PDF 檔案，開始分析..."]) as Heq.
  destruct pdf_files as [|f0 files]; [eexists; reflexivity|].
  rewrite Heq. cbn [app].
  destruct (concat _) as [|name rest]; eexists; f_equal; f_equal;
    rewrite <- ?app_assoc; cbn [app]; rewrite ?app_nil_r; reflexivity.
Qed.

Lemma printed_lines_of_a_run_witness :
  let pdf_files := filter (fun f => is_pdf basic_db f = true) [u "bill.pdf"] in
  let all_swaps :=
    concat ((fun f => (file_result basic_db one_bad_bill (u ".") f).1)
              <$> pdf_files) in
  exists counted,
    analyze_bills_in_folder basic_db one_bad_bill (u ".") =
      Ok (counted,
          match pdf_files with
          | [] => [u "錯誤：在指定資料夾中找不到任何 PDF 檔案。"]
          | _ :: _ =>
            [u "找到 " ++ str_of_nat (length pdf_files) ++ u " 個 PDF 檔案，開始分析..."]
            ++ concat (file_lines basic_db one_bad_bill (u ".") <$> pdf_files)
            ++ [u "分析完成！"]
            ++ match all_swaps with
               | [] => [u "警告：未能在 PDF 檔案中提取到任何換電紀錄。"]
               | _ :: _ => []
               end
          end).
Proof.
  apply (printed_lines_of_a_run basic_db one_bad_bill (u ".") [u "bill.pdf"]).
  reflexivity.
Defined.

Lemma total_zero_iff (db : unicode_db) (sys : system) (folder_path : str) :
  match analyze_bills_in_folder db sys folder_path with
  | Ok ((total_swaps, station_counts), _) =>
    total_swaps = 0%nat <-> station_counts = []
  | Raise _ => True
  end.
Proof.
  unfold analyze_bills_in_folder.
  destruct (listdir sys folder_path) as [names|e]; [|exact I].
  destruct (filter _ names) as [|f files]; [split; reflexivity|].
  destruct (foldl _ _ (f :: files)) as [[|name all_swaps] out];
    [split; reflexivity|].
  split; [discriminate|]. intros H.
  pose proof (value_counts_total (name :: all_swaps)) as Ht.
  rewrite H in Ht. discriminate Ht.
Qed.

(** X9. In the pair that a run returns, the total is zero exactly when
    the table is empty: the test [total_swaps > 0] of the script and the
    test [station_counts.empty] of the charting stage agree. *)
Theorem zero_total_iff_empty_table (db : unicode_db) (sys : system)
  (folder_path : str) :
  match analyze_bills_in_folder db sys folder_path with
  | Ok ((total_swaps, station_counts), _) =>
    total_swaps = 0%nat <-> station_counts = []
  | Raise _ => True
  end.
Proof. apply total_zero_iff. Qed.

(** * The frequency table *)

(** How often a name stands in a list, and the count that a table holds
    for a name (0 where it holds none). *)
Definition occurrences (name : str) (names : list str) : nat :=
  length (filter (fun x => x = name) names).

Fixpoint table_get (name : str) (t : series) : nat :=
  match t with
  | [] => 0
  | (k, n) :: t' => if decide (k = name) then n else table_get name t'
  end.

Lemma get_count_one (x name : str) (t : series) :
  table_get name (count_one x t) =
  (table_get name t + if decide (x = name) then 1 else 0)%nat.
Proof.
  induction t as [|[k n] t IH]; simpl.
  - destruct (decide (x = name)); reflexivity.
  - destruct (decide (k = x)) as [->|Hkx]; simpl.
    + destruct (decide (x = name)); lia.
    + destruct (decide (k = name)) as [->|Hkn]; [|exact IH].
      destruct (decide (x = name)); [congruence | lia].
Qed.

Lemma keys_count_one (x k : str) (t : series) :
  k ∈ (count_one x t).*1 <-> k = x \/ k ∈ t.*1.
Proof.
  induction t as [|[k' n] t IH]; simpl.
  - rewrite list_elem_of_singleton. split; [auto | intros [H|H]; [exact H | inversion H]].
  - destruct (decide (k' = x)) as [->|Hne]; simpl.
    + rewrite elem_of_cons. tauto.
    + rewrite !elem_of_cons, IH. tauto.
Qed.

Lemma nodup_count_one (x : str) (t : series) :
  NoDup t.*1 -> NoDup (count_one x t).*1.
Proof.
  induction t as [|[k n] t IH]; simpl; intros H.
  - repeat constructor. intros Hx. inversion Hx.
  - destruct (decide (k = x)) as [->|Hne]; simpl; [exact H|].
    apply NoDup_cons in H as [Hk Ht]. apply NoDup_cons. split; [|apply IH, Ht].
    rewrite keys_count_one. intros [->|Hin]; contradiction.
Qed.

Lemma elem_get (k : str) (n : nat) (t : series) :
  NoDup t.*1 -> (k, n) ∈ t -> table_get k t = n.
Proof.
  induction t as [|[k' n'] t IH]; simpl; intros Hnd Hin; [inversion Hin|].
  apply NoDup_cons in Hnd as [Hk Ht]. apply elem_of_cons in Hin as [Heq|Hin].
  - injection Heq as -> ->. destruct (decide (k' = k')); [reflexivity | contradiction].
  - destruct (decide (k' = k)) as [->|_]; [|apply IH; assumption].
    exfalso. apply Hk. apply list_elem_of_fmap. exists (k, n). auto.
Qed.

Lemma get_elem (k : str) (t : series) :
  k ∈ t.*1 -> (k, table_get k t) ∈ t.
Proof.
  induction t as [|[k' n'] t IH]; simpl; intros Hin; [inversion Hin|].
  destruct (decide (k' = k)) as [->|Hne]; [left|].
  apply elem_of_cons in Hin as [->|Hin]; [contradiction|].
  right. apply IH, Hin.
Qed.

Lemma count_all (names : list str) (t : series) :
  let t' := foldl (fun t name => count_one name t) t names in
  (NoDup t.*1 -> NoDup t'.*1)
  /\ (forall k, k ∈ t'.*1 <-> k ∈ t.*1 \/ k ∈ names)
  /\ (forall k, table_get k t' = (table_get k t + occurrences k names)%nat).
Proof.
  revert t. induction names as [|x names IH]; intros t; simpl.
  - repeat split; [auto | auto | | unfold occurrences; simpl; lia].
    intros [H|H]; [exact H | inversion H].
  - destruct (IH (count_one x t)) as [Hnd [Hkeys Hget]]. repeat split.
    + intros H. apply Hnd, nodup_count_one, H.
    + rewrite Hkeys, keys_count_one, elem_of_cons. tauto.
    + rewrite Hkeys, keys_count_one, elem_of_cons. tauto.
    + intros k. rewrite Hget, get_count_one. unfold occurrences.
      rewrite filter_cons. destruct (decide (x = k)); simpl; lia.
Qed.

(** X10. The table has one entry for each distinct name of the list,
    and the count of an entry is the number of times its name stands in
    the list. *)
Theorem value_counts_counts_occurrences (names : list str) :
  NoDup (value_counts names).*1
  /\ (forall name n,
        (name, n) ∈ value_counts names <->
        name ∈ names /\ n = occurrences name names).
Proof.
  unfold value_counts.
  destruct (count_all names []) as [Hnd [Hkeys Hget]].
  specialize (Hnd (NoDup_nil_2)). simpl in Hget.
  assert (forall k,
            k ∈ (foldl (fun t x => count_one x t) [] names).*1 <-> k ∈ names)
    as Hk.
  { intros k. rewrite Hkeys. split; [intros [H|H]; [inversion H | exact H] | auto]. }
  split; [rewrite merge_sort_Permutation; exact Hnd|].
  intros name n. rewrite merge_sort_Permutation. split.
  - intros Hin. split.
    + apply Hk. apply list_elem_of_fmap. exists (name, n). auto.
    + rewrite <- (elem_get name n _ Hnd Hin). apply Hget.
  - intros [Hin ->]. rewrite <- Hget. apply get_elem, Hk, Hin.
Qed.

#[local] Instance by_count_desc_trans : Transitive by_count_desc.
Proof. intros a b c. unfold by_count_desc. lia. Qed.

#[local] Instance by_count_desc_total : Total by_count_desc.
Proof. intros a b. unfold by_count_desc. lia. Qed.

#[local] Instance by_count_asc_trans : Transitive by_count_asc.
Proof. intros a b c. unfold by_count_asc. lia. Qed.

#[local] Instance by_count_asc_total : Total by_count_asc.
Proof. intros a b. unfold by_count_asc. lia. Qed.

(** X11. The table is in the order of falling counts: no entry has a
    smaller count than an entry after it. *)
Theorem value_counts_descending (names : list str) :
  StronglySorted (fun a b => (b.2 <= a.2)%nat) (value_counts names).
Proof.
  unfold value_counts.
  apply (StronglySorted_merge_sort by_count_desc).
Qed.

(** * Further properties of the charting stage *)







Lemma bind_ok_inv {A B} (m : plt A) (f : A -> plt B) (tr tr2 : list call) (b : B) :
  bind m f tr = (tr2, Ok b) ->
  exists a tr1, m tr = (tr1, Ok a) /\ f a tr1 = (tr2, Ok b).
Proof.
  unfold bind. destruct (m tr) as [tr1 [a|e]]; [eauto | discriminate].
Qed.

(** X14. When the charting stage is given a table that is not empty and
    returns with no exception, the call that saves the file was made and
    did not raise, and the last two things done are that call and the
    printing of the line that names the file. *)
Theorem normal_return_means_saved (be : backend) (station_counts : series)
  (output_filename : str) (tr tr' : list call) :
  station_counts <> [] ->
  plot_and_save_analysis be station_counts output_filename tr = (tr', Ok tt) ->
  raises be (SaveFig output_filename) = None
  /\ exists before,
       tr' = before ++
             [SaveFig output_filename;
              Print (10 :: u "分析圖表已儲存為 '" ++ output_filename ++ u "'")].
Proof.
  intros Hne H. destruct station_counts as [|p rest]; [contradiction|].
  unfold plot_and_save_analysis in H. cbv zeta in H.
  do 9 (apply bind_ok_inv in H as [? [? [_ H]]]).
  apply bind_ok_inv in H as [? [t1 [Hsave H]]].
  unfold lib in Hsave.
  destruct (raises be (SaveFig output_filename)) eqn:E; [discriminate|].
  injection Hsave as <-. unfold say in H. injection H as <-.
  split; [reflexivity|]. eexists. rewrite <- app_assoc. reflexivity.
Qed.

Lemma normal_return_means_saved_witness :
  raises quiet_backend (SaveFig default_output_filename) = None
  /\ exists before,
       (plot_and_save_analysis quiet_backend [(u "信義站", 2%nat)]
          default_output_filename []).1 =
       before ++
         [SaveFig default_output_filename;
          Print (10 :: u "分析圖表已儲存為 '" ++ default_output_filename ++ u "'")].
Proof.
  apply (normal_return_means_saved quiet_backend [(u "信義站", 2%nat)]
           default_output_filename []).
  - discriminate.
  - vm_compute. reflexivity.
Defined.

(** * The script *)

(** The block under [if __name__ == "__main__"], with the default
    folder and file name; [to_string] is the rendering of the table by
    pandas. An exception that [analyze_bills_in_folder] does not catch
    ends the script. *)
Definition main (db : unicode_db) (sys : system) (be : backend)
  (to_string : series -> str) : plt unit :=
  fun tr =>
    match analyze_bills_in_folder db sys (u ".") with
    | Raise e => (tr, Raise e)
    | Ok ((total_swaps, station_counts), printed) =>
      let tr := tr ++ (Print <$> printed) in
      if decide (0 < total_swaps)%nat then
        (say (10 :: u "--- Gogoro 電池交換分析結果 ---") >>
         say (10 :: u "總交換次數: " ++ str_of_nat total_swaps ++ u " 次") >>
         say (10 :: u "各站點交換次數統計:") >>
         say (to_string station_counts) >>
         plot_and_save_analysis be station_counts default_output_filename) tr
      else (tr, Ok tt)
    end.

(** X15. The script draws a chart exactly when a run counted a name.
    With an empty table it prints what the run printed and does nothing
    more: no report, no call of a plotting library, no file. With a table
    that is not empty it prints the four report lines and then enters
    the charting stage past its guard, the font setting being the next
    call. *)
Theorem script_charts_iff_counted (db : unicode_db) (sys : system) (be : backend)
  (to_string : series -> str) (tr : list call) :
  match analyze_bills_in_folder db sys (u ".") with
  | Raise e => main db sys be to_string tr = (tr, Raise e)
  | Ok ((total_swaps, station_counts), printed) =>
    match station_counts with
    | [] => main db sys be to_string tr = (tr ++ (Print <$> printed), Ok tt)
    | _ :: _ =>
      exists after,
        (main db sys be to_string tr).1 =
          tr ++ (Print <$> printed)
          ++ [ Print (10 :: u "--- Gogoro 電池交換分析結果 ---");
               Print (10 :: u "總交換次數: " ++ str_of_nat total_swaps ++ u " 次");
               Print (10 :: u "各站點交換次數統計:");
               Print (to_string station_counts);
               SetFontSansSerif [u "Microsoft JhengHei"] ]
          ++ after
    end
  end.
Proof.
  unfold main. pose proof (total_zero_iff db sys (u ".")) as Hz.
  destruct (analyze_bills_in_folder db sys (u ".")) as [[[total counts] printed]|e];
    [|reflexivity].
  destruct counts as [|p rest].
  - rewrite (proj2 Hz eq_refl). reflexivity.
  - destruct (decide (0 < total)%nat) as [_|Hn].
    + unfold bind at 1 2 3 4, say.
      match goal with
      | |- context [plot_and_save_analysis be _ ?f ?t] =>
        destruct (chart_begins be p rest f t) as [after Hafter]
      end.
      exists after. rewrite Hafter. rewrite <- !app_assoc. reflexivity.
    + exfalso. assert (total = 0%nat) as Ht by lia.
      apply Hz in Ht. discriminate Ht.
Qed.

(** * Row keys and coordinates *)

Lemma py_round_bounds (q : Q) :
  (Qfloor q <= py_round q <= Qfloor q + 1)%Z.
Proof.
  unfold py_round. destruct (q - inject_Z (Qfloor q) ?= 1 # 2)%Q;
    [destruct (Z.even (Qfloor q))| |]; lia.
Qed.

Lemma py_round_mono (q1 q2 : Q) :
  (q1 <= q2)%Q -> (py_round q1 <= py_round q2)%Z.
Proof.
  intros Hle. pose proof (Qfloor_resp_le _ _ Hle) as Hf.
  destruct (Z.eq_dec (Qfloor q1) (Qfloor q2)) as [Heq|Hne].
  - unfold py_round. rewrite <- Heq.
    destruct (q1 - inject_Z (Qfloor q1) ?= 1 # 2)%Q eqn:E1;
      destruct (q2 - inject_Z (Qfloor q1) ?= 1 # 2)%Q eqn:E2;
      try (destruct (Z.even (Qfloor q1))); try lia; exfalso;
      first [apply Qeq_alt in E1 | apply Qlt_alt in E1 | apply Qgt_alt in E1];
      first [apply Qeq_alt in E2 | apply Qlt_alt in E2 | apply Qgt_alt in E2];
      generalize dependent (inject_Z (Qfloor q1)); intros f ? ?; lra.
  - pose proof (py_round_bounds q1). pose proof (py_round_bounds q2). lia.
Qed.

(** X16. Row keys follow the coordinates: a word that is not lower on
    the page than another has a row key that is not greater, so the rows
    come out from the top of the page down; and two words of one row have
    top coordinates that differ by one unit at most. *)
Theorem row_keys_follow_coordinates (w1 w2 : word) :
  ((word_y0 w1 <= word_y0 w2)%Q -> (row_key w1 <= row_key w2)%Z)
  /\ (row_key w1 = row_key w2 -> (Qabs (word_y0 w1 - word_y0 w2) <= 1)%Q).
Proof.
  split; [apply py_round_mono|].
  unfold row_key. intros Heq.
  pose proof (py_round_nearest (word_y0 w1)) as H1.
  pose proof (py_round_nearest (word_y0 w2)) as H2.
  rewrite Heq in H1.
  apply Qabs_Qle_condition in H1, H2. apply Qabs_Qle_condition.
  generalize dependent (inject_Z (py_round (word_y0 w2))). intros r H1 H2.
  split; lra.
Qed.

Lemma row_keys_follow_coordinates_witness :
  ((10.4 <= 20.5)%Q ->
   (row_key {| word_y0 := 10.4; word_text := [] |}
    <= row_key {| word_y0 := 20.5; word_text := [] |})%Z)
  /\ (row_key {| word_y0 := 10.4; word_text := [] |}
      = row_key {| word_y0 := 9.6; word_text := [] |} ->
      (Qabs (10.4 - 9.6) <= 1)%Q).
Proof.
  split.
  - apply (proj1 (row_keys_follow_coordinates
                    {| word_y0 := 10.4; word_text := [] |}
                    {| word_y0 := 20.5; word_text := [] |})).
  - apply (proj2 (row_keys_follow_coordinates
                    {| word_y0 := 10.4; word_text := [] |}
                    {| word_y0 := 9.6; word_text := [] |})).
Defined.

(** * Candidates as pieces of the row *)

(** A text cut into pieces: a gap, a candidate, a gap, a candidate, and
    so on, then what is left. *)
Definition pieces (gaps cands : list str) (tail : str) : str :=
  concat (zip_with app gaps cands) ++ tail.

Lemma findall_from_pieces (r : regex) (s : str) (skip : nat) :
  (forall t rest, re_match r t = Some rest -> (length rest < length t)%nat) ->
  exists gaps tail,
    length gaps = length (findall_from r s skip)
    /\ drop skip s = pieces gaps (findall_from r s skip) tail.
Proof.
  intros Hne. revert skip. induction s as [|a s IH]; intros skip.
  - exists [], []. destruct skip; simpl; [|auto].
    destruct (re_match r []) as [rest|] eqn:E; [|auto].
    apply Hne in E. simpl in E. lia.
  - destruct skip as [|n]; cbn [findall_from]; [|apply IH].
    destruct (re_match r (a :: s)) as [rest|] eqn:E.
    + apply Hne in E. unfold matched.
      destruct (length (a :: s) - length rest)%nat as [|n] eqn:Hn; [lia|].
      destruct (IH n) as [gaps [tail [Hlen Heq]]].
      exists ([] :: gaps), tail. split; [simpl; lia|].
      unfold pieces in *. simpl. rewrite <- app_assoc, <- Heq.
      rewrite take_drop. reflexivity.
    + destruct (IH 0%nat) as [gaps [tail [Hlen Heq]]]. rewrite drop_0 in Heq.
      unfold pieces in *. simpl.
      destruct (findall_from r s 0) as [|c cands].
      * exists [], (a :: tail). destruct gaps; [|discriminate Hlen].
        simpl in *. rewrite Heq. auto.
      * destruct gaps as [|g gaps]; [discriminate Hlen|].
        exists ((a :: g) :: gaps), tail. simpl in *. rewrite Heq. auto.
Qed.

(** X17. The candidates of a row are pieces of the row text that do not
    overlap, in the order in which they stand: the row text is a gap,
    the first candidate, a gap, the second candidate, and so on, and then
    the rest of the text. *)
Theorem candidates_do_not_overlap (db : unicode_db) (row_text : str) :
  exists gaps tail,
    length gaps = length (findall (station_pattern db) row_text)
    /\ row_text =
       concat (zip_with app gaps (findall (station_pattern db) row_text)) ++ tail.
Proof.
  destruct (findall_from_pieces (station_pattern db) row_text 0) as
    [gaps [tail [Hlen Heq]]].
  - intros t rest Hm.
    apply station_match_sound in Hm as [run [tok [-> [Hne _]]]].
    rewrite !length_app. destruct run; [contradiction | simpl; lia].
  - exists gaps, tail. rewrite drop_0 in Heq. auto.
Qed.

(** * The longest candidate *)

Lemma greedy_none (p : N -> bool) (s : str) (k : str -> option str) (m : nat) :
  greedy p s k = None ->
  Forall (fun c => p c = true) (take m s) -> k (drop m s) = None.
Proof.
  intros Hg Hall. destruct (k (drop m s)) as [r|] eqn:E; [|reflexivity].
  destruct (greedy_complete p s k m r Hall E) as [r' Hr']. congruence.
Qed.

(** The repetition stops at the longest run after which the rest of the
    pattern matches. *)
Lemma greedy_max (p : N -> bool) (s : str) (k : str -> option str) (r : str) :
  greedy p s k = Some r ->
  exists n,
    (n <= length s)%nat
    /\ Forall (fun c => p c = true) (take n s) /\ k (drop n s) = Some r
    /\ forall m, (n < m <= length s)%nat ->
         Forall (fun c => p c = true) (take m s) -> k (drop m s) = None.
Proof.
  revert r. induction s as [|c s IH]; intros r H; simpl in H.
  - exists 0%nat. split; [simpl; lia|]. split; [constructor|]. split; [exact H|].
    intros m Hm. simpl in Hm. lia.
  - destruct (p c) eqn:Hc.
    + destruct (greedy p s k) as [r'|] eqn:Hg.
      * injection H as ->. destruct (IH r eq_refl) as [n [Hn [Hall [Hk Hmax]]]].
        exists (S n). simpl. split; [lia|]. split; [constructor; assumption|].
        split; [exact Hk|].
        intros m Hm Hallm. destruct m as [|m]; [lia|]. simpl in *.
        apply Hmax; [lia|]. inversion Hallm; assumption.
      * exists 0%nat. simpl. split; [lia|]. split; [constructor|]. split; [exact H|].
        intros m Hm Hallm. destruct m as [|m]; [lia|]. simpl in *.
        apply (greedy_none p s k m Hg). inversion Hallm; assumption.
    + exists 0%nat. simpl. split; [lia|]. split; [constructor|]. split; [exact H|].
      intros m Hm Hallm. destruct m as [|m]; [lia|]. simpl in Hallm.
      inversion Hallm; congruence.
Qed.

(** Two suffix words that stand at one place are one word, and no suffix
    word begins inside another. *)
Lemma suffix_unique (tok tok' rest rest' : str) :
  tok ∈ suffixes -> tok' ∈ suffixes -> tok ++ rest = tok' ++ rest' -> tok = tok'.
Proof.
  unfold suffixes. intros H H' Heq.
  repeat (apply elem_of_cons in H as [->|H]); [..|inversion H];
    repeat (apply elem_of_cons in H' as [->|H']); try (inversion H'; fail);
    first [reflexivity | discriminate Heq].
Qed.

Lemma suffix_no_overlap (tok tok' rest rest' : str) (j : nat) :
  tok ∈ suffixes -> tok' ∈ suffixes -> (0 < j < length tok')%nat ->
  drop j tok' ++ rest' = tok ++ rest -> False.
Proof.
  unfold suffixes. intros H H' Hj Heq.
  repeat (apply elem_of_cons in H' as [->|H']); [..|inversion H'];
    simpl in Hj;
    (destruct j as [|[|[|j]]]; [lia | ..]; try lia);
    simpl in Heq;
    repeat (apply elem_of_cons in H as [->|H]); try (inversion H; fail);
    discriminate Heq.
Qed.

(** X18. The candidate at a place is the longest one there: of all the
    ways to read, from that place, a run of class characters followed by
    a suffix word, the match takes the one that ends last. *)
Theorem candidate_is_longest (db : unicode_db) (t rest : str) :
  re_match (station_pattern db) t = Some rest ->
  forall run tok rest',
    t = run ++ tok ++ rest' -> run <> [] ->
    Forall (fun c => station_char db c = true) run -> tok ∈ suffixes ->
    (length rest <= length rest')%nat.
Proof.
  unfold re_match, station_pattern. simpl. intros Hm run tok rest' Ht Hne Hrun Htok.
  destruct t as [|x s]; [discriminate|].
  destruct (station_char db x); [|discriminate].
  apply greedy_max in Hm as [n [Hn [_ [Hk Hmax]]]].
  apply suffix_alt_sound in Hk as [tok0 [rest0 [Htok0 [Hdrop Hrest0]]]].
  injection Hrest0 as ->.
  destruct run as [|x' run]; [contradiction|]. injection Ht as -> Hs.
  inversion Hrun as [|? ? _ Hrun']; subst.
  assert (length (drop n (run ++ tok ++ rest')) = (length tok0 + length rest)%nat)
    as Hlen by (rewrite Hdrop, length_app; reflexivity).
  rewrite length_drop, !length_app in Hlen. rewrite !length_app in Hn.
  destruct (Nat.lt_trichotomy (length run) n) as [Hlt|[Heq|Hgt]].
  - destruct (Nat.le_gt_cases (length run + length tok) n) as [Hfar|Hin]; [lia|].
    exfalso.
    apply (suffix_no_overlap tok0 tok rest rest' (n - length run) Htok0 Htok);
      [lia|].
    rewrite <- Hdrop.
    replace n with (length run + (n - length run))%nat at 2 by lia.
    rewrite <- drop_drop, drop_app_length, drop_app_le by lia. reflexivity.
  - subst n. rewrite drop_app_length in Hdrop.
    pose proof (suffix_unique tok tok0 rest' rest Htok Htok0 Hdrop) as ->.
    apply app_inv_head in Hdrop. subst. lia.
  - exfalso.
    assert (exec suffix_alt (drop (length run) (run ++ tok ++ rest')) Some = None)
      as Hnone.
    { apply Hmax; [rewrite !length_app; lia|].
      rewrite take_app_length. exact Hrun'. }
    rewrite drop_app_length in Hnone.
    destruct (suffix_alt_complete tok rest' Some rest' Htok eq_refl) as [r Hr].
    congruence.
Qed.

Lemma candidate_is_longest_witness :
  (length (u " 12:30") <= length (u "店 12:30"))%nat.
Proof.
  apply (fun H => candidate_is_longest basic_db (u "信義站店 12:30") (u " 12:30")
                     H (u "信義") (u "站") (u "店 12:30")).
  - vm_compute. reflexivity.
  - vm_compute. reflexivity.
  - discriminate.
  - repeat constructor.
  - unfold suffixes. apply list_elem_of_here.
Defined.
